(** * Vortex download management (extensions/download_management/index.ts)

    A shallow embedding of the download bookkeeping of the extension:
    the archive-extension filter, the startup recovery of interrupted
    downloads, the directory watcher, the directory refresh, the import
    of files and the speed reporting.

    Conventions of the embedding.
    - The redux store is a value; [store.dispatch] is recorded as an
      effect, and the effects an operation produces are a list in the
      order the code produces them.  Promise continuations are run at the
      point where their input (the outcome of the file-system call) is
      known; that outcome is an input of the model.
    - A JavaScript value that may be [undefined] is an [option].
    - Byte counts are integers; JavaScript numbers are modelled as exact
      integers plus [NaN], which is what they are below 2^53.
    - The object [state.persistent.downloads.files] is a finite map from
      download ids to records.  [Object.keys] enumerates it in the order of
      [map_to_list]; no property below depends on that order. *)

From Stdlib Require Import ZArith List String Ascii Lia Bool.
From stdpp Require Import base gmap strings list option.

Open Scope string_scope.
Open Scope Z_scope.
Open Scope list_scope.

(** ** JavaScript values *)

Module JS.

(** A number: an integer or [NaN]. *)
Inductive number := NaN | Num (z : Z).

(** [ToNumber] of a numeric field that may be [undefined]. *)
Definition toNumber (v : option Z) : number :=
  match v with
  | Some z => Num z
  | None => NaN
  end.

Definition add (a b : number) : number :=
  match a, b with
  | Num x, Num y => Num (x + y)
  | _, _ => NaN
  end.

Definition sub (a b : number) : number :=
  match a, b with
  | Num x, Num y => Num (x - y)
  | _, _ => NaN
  end.

Definition isNaN (a : number) : bool :=
  match a with
  | NaN => true
  | Num _ => false
  end.

(** [v !== 0] for a numeric field that may be [undefined]. *)
Definition neq_zero (v : option Z) : bool :=
  match v with
  | Some 0 => false
  | _ => true
  end.

End JS.

(** Modelled from the spec: [truthy] of util/util is not under src/; it is
    JavaScript truthiness ([!!val]), which is how every call site uses it:
    [undefined], the empty string and [0] are falsy, every array is truthy,
    the empty one too. *)
Class Truthy (A : Type) := truthy : A -> bool.

#[global] Instance truthy_string : Truthy string :=
  fun s => negb (String.eqb s "").
#[global] Instance truthy_array {A : Type} : Truthy (list A) :=
  fun _ => true.
#[global] Instance truthy_undefined {A : Type} `{Truthy A} : Truthy (option A) :=
  fun o => match o with
           | None => false
           | Some a => truthy a
           end.

(** Modelled from the spec: [sum] of util/util is not under src/; the
    spec's sum over all chunks, as a left fold of JavaScript addition
    from 0. *)
Definition sum (container : list JS.number) : JS.number :=
  fold_left JS.add container (JS.Num 0).

(** ** The persisted records *)

(** The fields of a chunk that index.ts reads. *)
Record IChunk := mkChunk {
  chunk_size : option Z
}.

(** The fields of [IDownload] that index.ts reads or that the actions it
    dispatches write. *)
Record IDownload := mkDownload {
  state : string;
  localPath : option string;
  urls : option (list string);
  size : option Z;
  received : option Z;
  chunks : option (list IChunk);
  game : option string
}.

(** [state.persistent.downloads] *)
Record Downloads := mkDownloads {
  files : gmap string IDownload;
  speed : option Z;
  speedHistory : list Z
}.

(** ** Actions and effects *)

(** The actions of actions/state that index.ts dispatches.
    [removeDownload] can be handed [nameIdMap[name]], which may be
    [undefined]. *)
Inductive action :=
| addLocalDownload (id : string) (gameId : option string)
                   (fileName : string) (fileSize : Z)
| removeDownload (id : option string)
| setDownloadInterrupted (id : string) (realReceived : JS.number)
| downloadProgress (id : string) (received total : Z)
                   (chunks : list IChunk) (urls : option (list string))
| setDownloadSpeed (speed : Z)
| setDownloadSpeeds (speeds : list Z).

(** What an operation does to the world, in order. *)
Inductive effect :=
| Dispatch (a : action)                 (* store.dispatch(a) *)
| FsRemove (path : string)              (* fs.removeAsync(path) *)
| FsCopy (source destination : string)  (* fs.copyAsync *)
| Emit (event : string) (ids : list string)
| Schedule                              (* speedsDebouncer.schedule() *).

#[global] Instance number_eq_dec : EqDecision JS.number.
Proof. solve_decision. Defined.
#[global] Instance IChunk_eq_dec : EqDecision IChunk.
Proof. solve_decision. Defined.
#[global] Instance action_eq_dec : EqDecision action.
Proof. solve_decision. Defined.
#[global] Instance effect_eq_dec : EqDecision effect.
Proof. solve_decision. Defined.

(** The actions among a list of effects. *)
Definition dispatched (es : list effect) : list action :=
  omap (fun e => match e with Dispatch a => Some a | _ => None end) es.

(** The paths handed to [fs.removeAsync]. *)
Definition removedFiles (es : list effect) : list string :=
  omap (fun e => match e with FsRemove p => Some p | _ => None end) es.

(** ** The reducer *)

Module Reducer.

Definition localDownload (gameId : option string) (fileName : string)
           (fileSize : Z) : IDownload :=
  {| state := "finished"; localPath := Some fileName; urls := Some [];
     size := Some fileSize; received := Some fileSize;
     chunks := Some []; game := gameId |}.

Definition interrupt (realReceived : JS.number) (d : IDownload)
  : IDownload :=
  {| state := "interrupted"; localPath := localPath d; urls := urls d;
     size := size d;
     received := match realReceived with
                 | JS.Num z => Some z
                 | JS.NaN => None
                 end;
     chunks := chunks d; game := game d |}.

Definition progress (rcvd total : Z) (cs : list IChunk)
           (us : option (list string)) (d : IDownload) : IDownload :=
  {| state := state d; localPath := localPath d;
     urls := match us with Some u => Some u | None => urls d end;
     size := Some total; received := Some rcvd;
     chunks := Some cs; game := game d |}.

Definition withFiles (f : gmap string IDownload -> gmap string IDownload)
           (s : Downloads) : Downloads :=
  {| files := f (files s); speed := speed s;
     speedHistory := speedHistory s |}.

(** Modelled from the spec: [stateReducer] of reducers/state is not
    under src/.  A record is created by a local download, removed by
    [removeDownload] (which, as the comment in the change handler says,
    does nothing if the download was already removed), moved to
    [interrupted] with its byte count by [setDownloadInterrupted], and
    updated in place by [downloadProgress]; [setDownloadSpeed] stores
    the reported speed and appends it to the speed history (whose bound
    is not modelled), [setDownloadSpeeds] replaces the history. *)
Definition reduce (s : Downloads) (a : action) : Downloads :=
  match a with
  | addLocalDownload id gameId fileName fileSize =>
      withFiles (insert id (localDownload gameId fileName fileSize)) s
  | removeDownload (Some id) => withFiles (delete id) s
  | removeDownload None => s
  | setDownloadInterrupted id realReceived =>
      withFiles (alter (interrupt realReceived) id) s
  | downloadProgress id rcvd total cs us =>
      withFiles (alter (progress rcvd total cs us) id) s
  | setDownloadSpeed v =>
      {| files := files s; speed := Some v;
         speedHistory := speedHistory s ++ [v] |}
  | setDownloadSpeeds vs =>
      {| files := files s; speed := speed s; speedHistory := vs |}
  end.

Definition reduceAll (s : Downloads) (acts : list action) : Downloads :=
  fold_left reduce acts s.

End Reducer.

(** The store after the dispatches among [es]. *)
Definition applyEffects (s : Downloads) (es : list effect) : Downloads :=
  Reducer.reduceAll s (dispatched es).

(** ** Known archive extensions *)

Definition archiveExtLookup : gset string :=
  list_to_set
    [".zip"; ".z01"; ".7z"; ".rar"; ".r00"; ".001"; ".bz2"; ".bzip2"; ".gz";
     ".gzip"; ".xz"; ".z"; ".fomod"].

(** The outcome of a promise of the file system: resolved with a value,
    or rejected with an error code. *)
Inductive fsResult (A : Type) :=
| Resolved (a : A)
| Rejected (code : string).
Arguments Resolved {A} a.
Arguments Rejected {A} code.

(** What index.ts reads of [fs.Stats]. *)
Record Stats := mkStats {
  stat_size : Z;
  isDirectory : bool
}.

Section Vortex.

(** Node's [path] module and [String.prototype.toLowerCase] belong to the
    platform; they are taken as given. *)
Variable extname : string -> string.
Variable toLowerCase : string -> string.
Variable join : string -> string -> string.
Variable basename : string -> string.

(** [getDownloadGames] of util/getDownloadGames is not under src/. *)
Variable getDownloadGames : IDownload -> list string.

Definition knownArchiveExt (filePath : option string) : bool :=
  if negb (truthy filePath) then false
  else match filePath with
       | Some p => bool_decide (toLowerCase (extname p) ∈ archiveExtLookup)
       | None => false
       end.

(** ** Startup: downloads interrupted by the last shutdown *)

Definition interruptedStates : list string := ["init"; "started"; "pending"].

(** [['init', 'started', 'pending'].indexOf(downloads[id].state) !== -1] *)
Definition isInterrupted (d : IDownload) : bool :=
  bool_decide (state d ∈ interruptedStates).

Definition realSize (d : IDownload) : JS.number :=
  let realSize :=
    if JS.neq_zero (size d)
    then JS.sub (JS.toNumber (size d))
           (sum (map (fun chunk => JS.toNumber (chunk_size chunk))
                     (default [] (chunks d))))
    else JS.Num 0 in
  if JS.isNaN realSize then JS.Num 0 else realSize.

(** The body of [interruptedDownloads.forEach], up to the point where it
    returns: the file removal is started, its continuation is
    [recoverThen]. *)
Definition recoverSync (downloadPath : option string) (id : string)
           (d : IDownload) : list effect :=
  if negb (truthy (urls d)) then
    match downloadPath, localPath d with
    | Some dp, Some lp => [FsRemove (join dp lp)]
    | _, _ => [Dispatch (removeDownload (Some id))]
    end
  else [Dispatch (setDownloadInterrupted id (realSize d))].

(** The [.then] of [fs.removeAsync]: it runs only if the removal of that
    path resolved. *)
Definition recoverThen (removed : string -> bool)
           (downloadPath : option string) (id : string) (d : IDownload)
  : list effect :=
  if negb (truthy (urls d)) then
    match downloadPath, localPath d with
    | Some dp, Some lp =>
        if removed (join dp lp) then [Dispatch (removeDownload (Some id))]
        else []
    | _, _ => []
    end
  else [].

(** The second loop: downloads that have no localPath set. *)
Definition dropNoLocalPath (id : string) (d : IDownload) : list effect :=
  if negb (truthy (localPath d)) then [Dispatch (removeDownload (Some id))]
  else [].

Definition interruptedDownloads (downloads : gmap string IDownload)
  : list (string * IDownload) :=
  List.filter (fun kv => isInterrupted (snd kv)) (map_to_list downloads).

(** The recovery block of [init]: the two loops, then the continuations of
    the removals the first loop started.  [removed p] says whether
    [fs.removeAsync p] resolves; [downloadPath] is
    [selectors.downloadPath] of the state. *)
Definition recoverDownloads (removed : string -> bool)
           (downloadPath : option string)
           (downloads : gmap string IDownload) : list effect :=
  flat_map (fun kv => recoverSync downloadPath (fst kv) (snd kv))
           (interruptedDownloads downloads)
  ++ flat_map (fun kv => dropNoLocalPath (fst kv) (snd kv))
              (map_to_list downloads)
  ++ flat_map (fun kv => recoverThen removed downloadPath (fst kv) (snd kv))
              (interruptedDownloads downloads).

(** The store after startup. *)
Definition startup (removed : string -> bool) (downloadPath : option string)
           (s : Downloads) : Downloads :=
  applyEffects s (recoverDownloads removed downloadPath (files s)).

(** Everything startup does on behalf of one record. *)
Definition recordEffects (removed : string -> bool)
           (downloadPath : option string) (id : string) (d : IDownload)
  : list effect :=
  (if isInterrupted d then recoverSync downloadPath id d else [])
  ++ dropNoLocalPath id d
  ++ (if isInterrupted d then recoverThen removed downloadPath id d else []).

(** ** The watcher of the download directory *)

(** The state a change handler works on: the module's [watchEnabled], and
    the [updateTimers] and [nameIdMap] of its closure, two objects used
    as maps from file names.  (A name that passes the extension filter
    contains a dot, so it is not a property the objects inherit.)  The
    handler shares [nameIdMap] with the [updateDownloadPath] that
    installed it; the map is threaded from the one to the other. *)
Record Watcher := mkWatcher {
  watchEnabled : bool;
  updateTimers : gmap string nat;
  nameIdMap : gmap string string
}.

Definition setNameId (name id : string) (w : Watcher) : Watcher :=
  {| watchEnabled := watchEnabled w; updateTimers := updateTimers w;
     nameIdMap := <[name := id]> (nameIdMap w) |}.

Definition findDownload (s : Downloads) (fileName : string) : option string :=
  fst <$> List.find
            (fun kv => bool_decide (localPath (snd kv) = Some fileName))
            (map_to_list (files s)).

(** What the environment supplies to one call of the handler: the outcome
    of [fs.statAsync] on the file and the id [shortid()] generates. *)
Record HandlerEnv := mkHandlerEnv {
  statOutcome : fsResult Stats;
  freshId : string
}.

(** The handler [genDownloadChangeHandler] returns, with the continuation
    of its promise run in place. *)
Definition downloadChangeHandler (normalize : string -> string)
           (gameId : string) (env : HandlerEnv)
           (evt : string) (fileName : option string)
           (w : Watcher) (s : Downloads) : Watcher * list effect :=
  if negb (watchEnabled w) || bool_decide (fileName = None)
     || negb (knownArchiveExt fileName) then (w, [])
  else
  match fileName with
  | None => (w, [])
  | Some name =>
    if String.eqb evt "update" then
      match updateTimers w !! name with
      | Some _ =>
          (w, match statOutcome env with
              | Resolved stats =>
                  match findDownload s name with
                  | Some dlId =>
                      [Dispatch (downloadProgress dlId (stat_size stats)
                                   (stat_size stats) [] None)]
                  | None => []
                  end
              | Rejected _ => []
              end)
      | None => (w, [])
      end
    else if String.eqb evt "rename" then
      match statOutcome env with
      | Resolved stats =>
          match findDownload s name with
          | None =>
              (setNameId (normalize name) (freshId env) w,
               [Dispatch (addLocalDownload (freshId env) (Some gameId) name
                            (stat_size stats));
                Emit "did-import-downloads" [freshId env]])
          | Some dlId => (setNameId (normalize name) dlId w, [])
          end
      | Rejected code =>
          (w, if String.eqb code "ENOENT" then
                match nameIdMap w !! normalize name with
                | Some id => [Dispatch (removeDownload (Some id))]
                | None => []
                end
              else [])
      end
    else (w, [])
  end.

(** The handler as [genDownloadChangeHandler] creates it: no timers. *)
Definition genDownloadChangeHandler (enabled : bool)
           (names : gmap string string) : Watcher :=
  {| watchEnabled := enabled; updateTimers := ∅; nameIdMap := names |}.

(** What reaches a watcher: a file-system event, or the
    [enable-download-watch] event of the application. *)
Inductive watchInput :=
| FsEvent (env : HandlerEnv) (evt : string) (fileName : option string)
| EnableWatch (enabled : bool).

Definition watchStep (normalize : string -> string) (gameId : string)
           (i : watchInput) (ws : Watcher * Downloads)
  : (Watcher * Downloads) * list effect :=
  match i with
  | FsEvent env evt fileName =>
      let r := downloadChangeHandler normalize gameId env evt fileName
                 (fst ws) (snd ws) in
      ((fst r, applyEffects (snd ws) (snd r)), snd r)
  | EnableWatch enabled =>
      (({| watchEnabled := enabled; updateTimers := updateTimers (fst ws);
           nameIdMap := nameIdMap (fst ws) |}, snd ws), [])
  end.

Fixpoint watchRun (normalize : string -> string) (gameId : string)
         (inputs : list watchInput) (ws : Watcher * Downloads)
  : (Watcher * Downloads) * list effect :=
  match inputs with
  | [] => (ws, [])
  | i :: rest =>
      let r := watchStep normalize gameId i ws in
      let r' := watchRun normalize gameId rest (fst r) in
      (fst r', snd r ++ snd r')
  end.

(** ** Refreshing the download directory *)

(** What the environment supplies to one refresh: the outcomes of
    [fs.ensureDirWritableAsync] and [fs.readdirAsync], of the
    [fs.statAsync] of the scan and of the one of [onAddDownload], and the
    id [shortid()] generates for a file. *)
Record RefreshEnv := mkRefreshEnv {
  dirWritable : fsResult unit;
  readdir : fsResult (list string);
  scanStat : string -> fsResult Stats;
  addStat : string -> fsResult Stats;
  shortid : string -> string
}.

(** The entries of the directory that the scan keeps: files with a known
    archive extension that are not directories. *)
Definition scanned (env : RefreshEnv) (downloadPath : string)
           (entries : list string) (m : string) : Prop :=
  In m entries /\ knownArchiveExt (Some m) = true
  /\ exists stat, scanStat env (join downloadPath m) = Resolved stat
                  /\ isDirectory stat = false.

(** [Promise.map] over a callback that threads the name map: every call
    is made, the effects of the calls that resolve are kept, and the
    result is rejected if a call is. *)
Fixpoint promiseMap {S : Type}
         (f : string -> S -> fsResult (S * list effect))
         (names : list string) (st : S) : S * list effect * option string :=
  match names with
  | [] => (st, [], None)
  | n :: rest =>
      match f n st with
      | Resolved (st1, es1) =>
          let r := promiseMap f rest st1 in
          (fst (fst r), es1 ++ snd (fst r), snd r)
      | Rejected code =>
          let r := promiseMap f rest st in
          (fst (fst r), snd (fst r), Some code)
      end
  end.

Definition refreshDownloads {S : Type} (env : RefreshEnv)
           (downloadPath : string) (knownDLs : list string)
           (normalize : string -> string)
           (onAddDownload : string -> S -> fsResult (S * list effect))
           (onRemoveDownload : string -> S -> fsResult (S * list effect))
           (st : S) : S * list effect * option string :=
  match dirWritable env with
  | Rejected code => (st, [], Some code)
  | Resolved _ =>
    match readdir env with
    | Rejected code => (st, [], Some code)
    | Resolved entries =>
      let downloadNames :=
        List.filter
          (fun filePath =>
             match scanStat env (join downloadPath filePath) with
             | Resolved stat => negb (isDirectory stat)
             | Rejected _ => false
             end)
          (List.filter (fun filePath => knownArchiveExt (Some filePath))
                       entries) in
      let dlsNormalized := map normalize downloadNames in
      let addedDLs :=
        List.filter
          (fun name => negb (bool_decide (normalize name ∈ knownDLs)))
          downloadNames in
      let removedDLs :=
        List.filter
          (fun name => negb (bool_decide (name ∈ dlsNormalized)))
          knownDLs in
      let added := promiseMap onAddDownload addedDLs st in
      match snd added with
      | Some code => added
      | None =>
          let removed :=
            promiseMap onRemoveDownload removedDLs (fst (fst added)) in
          (fst (fst removed), snd (fst added) ++ snd (fst removed),
           snd removed)
      end
    end
  end.

(** The first loop of [updateDownloadPath]: finished downloads without a
    localPath. *)
Definition dropFinishedNoLocalPath (id : string) (d : IDownload)
  : list effect :=
  if String.eqb (state d) "finished" && negb (truthy (localPath d))
  then [Dispatch (removeDownload (Some id))]
  else [].

(** [nameIdMap] as the reduce over [Object.keys(downloads)] builds it. *)
Definition buildNameIdMap (normalize : string -> string)
           (downloads : gmap string IDownload) : gmap string string :=
  fold_left
    (fun prev kv =>
       match localPath (snd kv) with
       | Some lp => <[normalize lp := fst kv]> prev
       | None => prev
       end)
    (map_to_list downloads) ∅.

Definition knownDLs (normalize : string -> string) (gameId : string)
           (downloads : gmap string IDownload) : list string :=
  map (fun kv =>
         normalize (match localPath (snd kv) with
                    | Some lp => if truthy lp then lp else ""
                    | None => ""
                    end))
      (List.filter
         (fun kv =>
            bool_decide (head (getDownloadGames (snd kv)) = Some gameId))
         (map_to_list downloads)).

(** [updateDownloadPath]: its effects and, when it gets that far, the
    name map the change handler it installs shares with it.
    [activeGameId] and [downloadPathForGame] are the selectors on the
    state; [getNormalizeFunc] may be rejected. *)
Definition updateDownloadPath (env : RefreshEnv)
           (activeGameId : option string)
           (downloadPathForGame : string -> string)
           (getNormalizeFunc : string -> fsResult (string -> string))
           (gameId : option string) (s : Downloads)
  : list effect * option (gmap string string) :=
  let downloads := files s in
  let dropped :=
    flat_map (fun kv => dropFinishedNoLocalPath (fst kv) (snd kv))
             (map_to_list downloads) in
  match (match gameId with Some g => Some g | None => activeGameId end) with
  | None => (dropped, None)
  | Some gameId =>
    let currentDownloadPath := downloadPathForGame gameId in
    match getNormalizeFunc currentDownloadPath with
    | Rejected _ => (dropped, None)
    | Resolved normalize =>
      let r :=
        refreshDownloads env currentDownloadPath
          (knownDLs normalize gameId downloads) normalize
          (fun fileName names =>
             match addStat env (join currentDownloadPath fileName) with
             | Resolved stats =>
                 Resolved
                   (<[normalize fileName := shortid env fileName]> names,
                    [Dispatch (addLocalDownload (shortid env fileName)
                                 (Some gameId) fileName (stat_size stats))])
             | Rejected code => Rejected code
             end)
          (fun fileName names =>
             Resolved
               (names, [Dispatch (removeDownload (names !! fileName))]))
          (buildNameIdMap normalize downloads) in
      (dropped ++ snd (fst r) ++ [Emit "downloads-refreshed" []],
       Some (fst (fst r)))
    end
  end.

(** ** Importing a file *)

(** What the environment supplies to one import: whether the destination
    exists, the button of the dialog, the outcomes of the removal, of the
    copy and of the final stat. *)
Record ImportEnv := mkImportEnv {
  destinationStat : fsResult Stats;
  dialogAction : string;
  removeOutcome : fsResult unit;
  copyOutcome : fsResult unit;
  copiedStat : fsResult Stats
}.

Definition removeArchive (env : ImportEnv) (destination : string)
           (s : Downloads) : list effect * option string :=
  match removeOutcome env with
  | Rejected code => ([FsRemove destination], Some code)
  | Resolved _ =>
      let fileName := basename destination in
      (FsRemove destination
       :: flat_map
            (fun kv =>
               if bool_decide (localPath (snd kv) = Some fileName)
               then [Dispatch (removeDownload (Some (fst kv)))]
               else [])
            (map_to_list (files s)),
       None)
  end.

Definition queryReplace (env : ImportEnv) (destination : string)
           (s : Downloads) : list effect * option string :=
  if String.eqb (dialogAction env) "Cancel"
  then ([], Some "UserCanceled")
  else removeArchive env destination s.

(** [move]: the chain of promises, with the single [catch] at its end;
    each step yields its effects and, if it is rejected, the error. *)
Definition move (env : ImportEnv) (gameMode : option string) (dlId : string)
           (source destination : string) (s : Downloads) : list effect :=
  let replaced :=
    match destinationStat env with
    | Resolved _ => queryReplace env destination s
    | Rejected _ => ([], None)
    end in
  let failed := [Dispatch (removeDownload (Some dlId))] in
  match snd replaced with
  | Some _ => fst replaced ++ failed
  | None =>
      fst replaced
      ++ [Dispatch (addLocalDownload dlId gameMode (basename destination) 0);
          FsCopy source destination]
      ++ match copyOutcome env with
         | Rejected _ => failed
         | Resolved _ =>
             match copiedStat env with
             | Rejected _ => failed
             | Resolved stats =>
                 [Dispatch (downloadProgress dlId (stat_size stats)
                              (stat_size stats) [] None);
                  Emit "did-import-download" [dlId]]
             end
         end
  end.

(** The effects of the replace query of an import, if there is one. *)
Definition replacedEffects (env : ImportEnv) (destination : string)
           (s : Downloads) : list effect :=
  match destinationStat env with
  | Resolved _ => fst (queryReplace env destination s)
  | Rejected _ => []
  end.

(** Whether the import went through [removeArchive]: the destination
    exists, the dialog was not cancelled and the removal succeeded. *)
Definition replaces (env : ImportEnv) : bool :=
  match destinationStat env, removeOutcome env with
  | Resolved _, Resolved _ => negb (String.eqb (dialogAction env) "Cancel")
  | _, _ => false
  end.

(** Whether the import reached its [catch]. *)
Definition moveFailed (env : ImportEnv) : bool :=
  match destinationStat env with
  | Resolved _ =>
      if String.eqb (dialogAction env) "Cancel" then true
      else match removeOutcome env with
           | Rejected _ => true
           | Resolved _ =>
               match copyOutcome env, copiedStat env with
               | Resolved _, Resolved _ => false
               | _, _ => true
               end
           end
  | Rejected _ =>
      match copyOutcome env, copiedStat env with
      | Resolved _, Resolved _ => false
      | _, _ => true
      end
  end.

End Vortex.

(** ** Reporting the speed *)

(** [store.getState().persistent.downloads.speed] *)
Definition storedSpeed (s : Downloads) : option Z := speed s.

(** The callback [init] hands to the download manager. *)
Definition onSpeed (speed : Z) (s : Downloads) : list effect :=
  if negb (speed =? 0) || JS.neq_zero (storedSpeed s)
  then [Dispatch (setDownloadSpeed speed); Schedule]
  else [].

Module Debouncer.

(** Modelled from the spec: [Debouncer] of util/Debouncer is not under
    src/.  Reporting is throttled to a fixed interval: [schedule] arms a
    timer of [debounceMS] milliseconds unless one is armed; an armed timer
    is left alone or, with [reset], re-armed from now.  [timer] is the
    time at which the armed timer goes off. *)
Record t := mk {
  debounceMS : Z;
  reset : bool;
  timer : option Z
}.

Definition arm (now : Z) (d : t) : t :=
  {| debounceMS := debounceMS d; reset := reset d;
     timer := Some (now + debounceMS d) |}.

Definition clear (d : t) : t :=
  {| debounceMS := debounceMS d; reset := reset d; timer := None |}.

Definition schedule (now : Z) (d : t) : t :=
  match timer d with
  | None => arm now d
  | Some _ => if reset d then arm now d else d
  end.

End Debouncer.

(** The store, the debouncer of the speeds, and the clock in
    milliseconds. *)
Record Meter := mkMeter {
  clock : Z;
  downloads : Downloads;
  speedsDebouncer : Debouncer.t
}.

(** [new Debouncer(..., 10000, false)], the flag left open. *)
Definition newMeter (reset : bool) (s : Downloads) : Meter :=
  {| clock := 0; downloads := s;
     speedsDebouncer :=
       {| Debouncer.debounceMS := 10000; Debouncer.reset := reset;
          Debouncer.timer := None |} |}.

(** The timer of the debouncer going off, if it is due at [now]: the
    function given to the debouncer runs. *)
Definition expire (now : Z) (m : Meter) : Meter * list (Z * effect) :=
  match Debouncer.timer (speedsDebouncer m) with
  | Some due =>
      if due <=? now then
        let a := setDownloadSpeeds (speedHistory (downloads m)) in
        ({| clock := clock m; downloads := Reducer.reduce (downloads m) a;
            speedsDebouncer := Debouncer.clear (speedsDebouncer m) |},
         [(due, Dispatch a)])
      else (m, [])
  | None => (m, [])
  end.

(** One call of the speed callback, [wait] milliseconds after the last
    one; the effects are stamped with the time they happen at. *)
Definition deliver (wait : N) (speed : Z) (m : Meter)
  : Meter * list (Z * effect) :=
  let now := clock m + Z.of_N wait in
  let r := expire now m in
  let m1 := fst r in
  let es := onSpeed speed (downloads m1) in
  ({| clock := now;
      downloads := applyEffects (downloads m1) es;
      speedsDebouncer :=
        if bool_decide (Schedule ∈ es)
        then Debouncer.schedule now (speedsDebouncer m1)
        else speedsDebouncer m1 |},
   snd r ++ map (fun e => (now, e)) es).

Fixpoint deliverAll (calls : list (N * Z)) (m : Meter)
  : Meter * list (Z * effect) :=
  match calls with
  | [] => (m, [])
  | (wait, speed) :: rest =>
      let r := deliver wait speed m in
      let r' := deliverAll rest (fst r) in
      (fst r', snd r ++ snd r')
  end.

(** The times at which [setDownloadSpeeds] was dispatched. *)
Definition speedsReports (log : list (Z * effect)) : list Z :=
  omap (fun te => match snd te with
                  | Dispatch (setDownloadSpeeds _) => Some (fst te)
                  | _ => None
                  end) log.

(** Any two reports are at least the interval apart. *)
Definition throttled (ts : list Z) : Prop :=
  ForallOrdPairs (fun t1 t2 => t1 + 10000 <= t2) ts.

(** What holds of a meter and the log of its past: the interval is the
    one it was made with, the reports lie in the past, they are
    throttled, and an armed timer goes off at least the interval after
    each of them. *)
Definition meterInv (m : Meter) (past : list (Z * effect)) : Prop :=
  Debouncer.debounceMS (speedsDebouncer m) = 10000
  /\ Forall (fun t => t <= clock m) (speedsReports past)
  /\ throttled (speedsReports past)
  /\ (forall due, Debouncer.timer (speedsDebouncer m) = Some due ->
                  Forall (fun t => t + 10000 <= due) (speedsReports past)).

(** Modelled from the spec: the Throughput Meter (the speed calculation of
    DownloadManager) is not under src/.  It aggregates the byte deltas of
    the workers over a window of a fixed span into a rate: the bytes of
    the window divided by its span. *)
Definition meterRate (window : list N) (span : positive) : Z :=
  Z.of_N (fold_right N.add 0%N window) / Z.pos span.

(** ** The operations of index.ts on the store *)

(** An operation with what the environment supplies to it. *)
Inductive operation :=
| Startup (removed : string -> bool) (downloadPath : option string)
| UpdateDownloadPath (env : RefreshEnv) (activeGameId : option string)
                     (downloadPathForGame : string -> string)
                     (getNormalizeFunc : string -> fsResult (string -> string))
                     (gameId : option string)
| WatchEvent (normalize : string -> string) (gameId : string) (w : Watcher)
             (env : HandlerEnv) (evt : string) (fileName : option string)
| Import (env : ImportEnv) (gameMode : option string)
         (dlId source destination : string)
| SpeedReport (speed : Z).

Section Operations.

Variable extname : string -> string.
Variable toLowerCase : string -> string.
Variable join : string -> string -> string.
Variable basename : string -> string.
Variable getDownloadGames : IDownload -> list string.

Definition perform (op : operation) (s : Downloads) : list effect :=
  match op with
  | Startup removed downloadPath =>
      recoverDownloads join removed downloadPath (files s)
  | UpdateDownloadPath env activeGameId downloadPathForGame getNormalizeFunc
                       gameId =>
      fst (updateDownloadPath extname toLowerCase join getDownloadGames env
             activeGameId downloadPathForGame getNormalizeFunc gameId s)
  | WatchEvent normalize gameId w env evt fileName =>
      snd (downloadChangeHandler extname toLowerCase normalize gameId env
             evt fileName w s)
  | Import env gameMode dlId source destination =>
      move basename env gameMode dlId source destination s
  | SpeedReport speed => onSpeed speed s
  end.

(** Supersession: an import replaces the archive at its destination, and
    the record carries the name of that archive. *)
Definition supersedes (op : operation) (s : Downloads) (id : string) : Prop :=
  match op with
  | Import env _ _ _ destination =>
      replaces env = true
      /\ exists d, files s !! id = Some d
                   /\ localPath d = Some (basename destination)
  | _ => False
  end.

(** Why an operation removes the record [id] of the store [s]. *)
Inductive removalCause (s : Downloads) (id : string) : operation -> Prop :=
| NeverStarted removed downloadPath d :
    files s !! id = Some d -> state d ∈ interruptedStates ->
    urls d = None ->
    removalCause s id (Startup removed downloadPath)
| NoLocalPath removed downloadPath d :
    files s !! id = Some d -> truthy (localPath d) = false ->
    removalCause s id (Startup removed downloadPath)
| FinishedNoLocalPath env activeGameId downloadPathForGame getNormalizeFunc
                      gameId d :
    files s !! id = Some d -> state d = "finished" ->
    truthy (localPath d) = false ->
    removalCause s id
      (UpdateDownloadPath env activeGameId downloadPathForGame
         getNormalizeFunc gameId)
| FileMissing env activeGameId downloadPathForGame getNormalizeFunc gameId
              g normalize entries d lp :
    getNormalizeFunc (downloadPathForGame g) = Resolved normalize ->
    readdir env = Resolved entries ->
    files s !! id = Some d -> localPath d = Some lp ->
    In (normalize lp) (knownDLs getDownloadGames normalize g (files s)) ->
    ~ (exists m, scanned extname toLowerCase join env
                   (downloadPathForGame g) entries m
                 /\ normalize m = normalize lp) ->
    removalCause s id
      (UpdateDownloadPath env activeGameId downloadPathForGame
         getNormalizeFunc gameId)
| FileDeleted normalize gameId w env name :
    watchEnabled w = true ->
    statOutcome env = Rejected "ENOENT" ->
    nameIdMap w !! normalize name = Some id ->
    removalCause s id (WatchEvent normalize gameId w env "rename" (Some name))
| Superseded env gameMode dlId source destination :
    supersedes (Import env gameMode dlId source destination) s id ->
    removalCause s id (Import env gameMode dlId source destination)
| ImportFailed env gameMode source destination :
    moveFailed env = true ->
    removalCause s id (Import env gameMode id source destination).

End Operations.

(** ** An instance of the platform functions

    A POSIX-like [path] and an ASCII [toLowerCase], to run the model on
    concrete inputs. *)
Module Posix.

Definition lowerAscii (c : ascii) : ascii :=
  let n := nat_of_ascii c in
  if (65 <=? n)%nat && (n <=? 90)%nat then ascii_of_nat (n + 32) else c.

Fixpoint toLowerCase (s : string) : string :=
  match s with
  | EmptyString => EmptyString
  | String c rest => String (lowerAscii c) (toLowerCase rest)
  end.

Fixpoint lastPart (cur s : string) : string :=
  match s with
  | EmptyString => cur
  | String c rest =>
      if Ascii.eqb c "/" then lastPart "" rest
      else lastPart (cur +:+ String c "") rest
  end.

Definition basename (p : string) : string := lastPart "" p.

Fixpoint fromLastDot (s : string) : option string :=
  match s with
  | EmptyString => None
  | String c rest =>
      match fromLastDot rest with
      | Some e => Some e
      | None => if Ascii.eqb c "." then Some s else None
      end
  end.

Definition extname (p : string) : string :=
  match basename p with
  | EmptyString => ""
  | String _ rest => default "" (fromLastDot rest)
  end.

Definition join (a b : string) : string :=
  if String.eqb b "" then a else a +:+ "/" +:+ b.

Definition getDownloadGames (d : IDownload) : list string :=
  match game d with
  | Some g => [g]
  | None => []
  end.

End Posix.

(** Whether an action concerns the record [id]. *)
Definition touches (id : string) (a : action) : bool :=
  match a with
  | addLocalDownload i _ _ _ => bool_decide (i = id)
  | removeDownload (Some i) => bool_decide (i = id)
  | removeDownload None => false
  | setDownloadInterrupted i _ => bool_decide (i = id)
  | downloadProgress i _ _ _ _ => bool_decide (i = id)
  | setDownloadSpeed _ => false
  | setDownloadSpeeds _ => false
  end.

Definition isAdd (id : string) (a : action) : bool :=
  match a with
  | addLocalDownload i _ _ _ => bool_decide (i = id)
  | _ => false
  end.

(** ** What the operations come to

    Closed forms of what the operations above do, each proved below to
    agree with the operation. *)
Section Outcomes.

Variable join : string -> string -> string.

(** Whether startup gets to dispatch the removal of a record without
    urls: at once if the download path or the localPath is undefined,
    and otherwise if the removal of its file resolves. *)
Definition removable (removed : string -> bool)
           (downloadPath : option string) (d : IDownload) : bool :=
  match downloadPath, localPath d with
  | Some dp, Some lp => removed (join dp lp)
  | _, _ => true
  end.

(** What startup makes of one record: [None] if it removes it. *)
Definition recovered (removed : string -> bool)
           (downloadPath : option string) (d : IDownload)
  : option IDownload :=
  if negb (truthy (localPath d)) then None
  else if isInterrupted d then
    if truthy (urls d) then Some (Reducer.interrupt (realSize d) d)
    else if removable removed downloadPath d then None
    else Some d
  else Some d.

End Outcomes.

(** No two records carry the same localPath. *)
Definition uniquePaths (fs : gmap string IDownload) : Prop :=
  forall id1 id2 d1 d2 lp,
    fs !! id1 = Some d1 -> fs !! id2 = Some d2 ->
    localPath d1 = Some lp -> localPath d2 = Some lp -> id1 = id2.

(** The times at which [setDownloadSpeed] was dispatched. *)
Definition speedSamples (log : list (Z * effect)) : list Z :=
  omap (fun te => match snd te with
                  | Dispatch (setDownloadSpeed _) => Some (fst te)
                  | _ => None
                  end) log.

(** 1 if the timer of the debouncer is armed, 0 if not. *)
Definition armed (m : Meter) : nat :=
  match Debouncer.timer (speedsDebouncer m) with
  | Some _ => 1
  | None => 0
  end.

(** ** The badge of the download page *)

Definition activeStates : list string := ["init"; "started"; "paused"].

(** The callback of the [ReduxProp] [downloadCount]: the number of
    downloads in state [init], [started] or [paused], or [undefined] if
    there is none. *)
Definition downloadCount (downloads : gmap string IDownload) : option nat :=
  let count :=
    length (List.filter
              (fun kv => bool_decide (state (snd kv) ∈ activeStates))
              (map_to_list downloads)) in
  if (0 <? count)%nat then Some count else None.

(** ** The tree of the categories

    [searchChildren] and [createTreeDataObject].  The recursion of
    [searchChildren] follows the data, so it is given fuel: [None] is a
    call that does not return. *)
Module Category.

(** The fields of a category the functions read; [parentCategory] is
    compared with [undefined] and with the keys of the object. *)
Record ICategory := mkCategory {
  name : string;
  parentCategory : option string
}.

(** [IChildren] and [ICategoryTree], which have the same fields. *)
#[warnings="-register-all"]
Inductive IChildren := mkNode {
  rootId : string;
  title : string;
  subtitle : string;
  expanded : bool;
  parentId : option string;
  children : list IChildren
}.

Section Tree.

(** [generateSubtitle] is not under src/; [Mods] is what it reads. *)
Variable Mods : Type.
Variable generateSubtitle : string -> Mods -> string.

(** [mods !== undefined ? generateSubtitle(element, mods) : ''] *)
Definition subtitleOf (mods : option Mods) (element : string) : string :=
  match mods with
  | Some m => generateSubtitle element m
  | None => ""
  end.

(** [Object.keys(categories).filter(id =>
      rootId === categories[id].parentCategory)] *)
Definition childrenOf (categories : gmap string ICategory) (rootId : string)
  : list (string * ICategory) :=
  List.filter (fun kv => bool_decide (parentCategory (snd kv) = Some rootId))
              (map_to_list categories).

(** [Object.keys(categories).filter(id =>
      categories[id].parentCategory === undefined)] *)
Definition roots (categories : gmap string ICategory)
  : list (string * ICategory) :=
  List.filter (fun kv => bool_decide (parentCategory (snd kv) = None))
              (map_to_list categories).

(** The two branches that push the child. *)
Definition pushChild (hided : bool) (child : IChildren)
           (childrenList : list IChildren) : list IChildren :=
  if negb hided then childrenList ++ [child]
  else if negb (String.eqb (subtitle child) "") then childrenList ++ [child]
  else childrenList.

(** One round of [children.forEach]: the child is built, its own
    children by [search], and pushed or not. *)
Definition collectStep (search : string -> option (list IChildren))
           (mods : option Mods) (hided : bool)
           (acc : option (list IChildren)) (kv : string * ICategory)
  : option (list IChildren) :=
  match acc with
  | None => None
  | Some childrenList =>
      match search (fst kv) with
      | None => None
      | Some sub =>
          Some (pushChild hided
                  {| rootId := fst kv; title := name (snd kv);
                     subtitle := subtitleOf mods (fst kv);
                     expanded := false;
                     parentId := parentCategory (snd kv);
                     children := sub |}
                  childrenList)
      end
  end.

(** The loop over the children, which both functions have. *)
Definition collect (search : string -> option (list IChildren))
           (mods : option Mods) (hided : bool)
           (children : list (string * ICategory))
  : option (list IChildren) :=
  fold_left (collectStep search mods hided) children (Some []).

Fixpoint searchChildren (fuel : nat) (categories : gmap string ICategory)
         (rootId : string) (mods : option Mods) (hided : bool)
  : option (list IChildren) :=
  match fuel with
  | O => None
  | S fuel' =>
      collect (fun element =>
                 searchChildren fuel' categories element mods hided)
              mods hided (childrenOf categories rootId)
  end.

Definition rootStep (fuel : nat) (categories : gmap string ICategory)
           (mods : option Mods) (hided : bool)
           (acc : option (list IChildren)) (kv : string * ICategory)
  : option (list IChildren) :=
  match acc with
  | None => None
  | Some categoryList =>
      match collect (fun element =>
                       searchChildren fuel categories element mods hided)
                    mods hided (childrenOf categories (fst kv)) with
      | None => None
      | Some childrenList =>
          Some (categoryList
                ++ [{| rootId := fst kv; title := name (snd kv);
                       subtitle := subtitleOf mods (fst kv);
                       expanded := false; parentId := None;
                       children := childrenList |}])
      end
  end.

Definition createTreeDataObject (fuel : nat)
           (categories : gmap string ICategory)
           (mods : option Mods) (hided : bool) : option (list IChildren) :=
  fold_left (rootStep fuel categories mods hided) (roots categories)
            (Some []).

(** A category at the end of a chain of [k] parents that starts at a
    root. *)
Inductive rooted (categories : gmap string ICategory)
  : string -> nat -> Prop :=
| rooted_root id c :
    categories !! id = Some c -> parentCategory c = None ->
    rooted categories id 0
| rooted_child id c p k :
    categories !! id = Some c -> parentCategory c = Some p ->
    rooted categories p k -> rooted categories id (S k).

(** [ancestor categories k id a]: [k] steps from [id] to its parent
    lead to [a]. *)
Inductive ancestor (categories : gmap string ICategory)
  : nat -> string -> string -> Prop :=
| ancestor_self id : ancestor categories 0 id id
| ancestor_step k id c p a :
    categories !! id = Some c -> parentCategory c = Some p ->
    ancestor categories k p a -> ancestor categories (S k) id a.

End Tree.

End Category.

(** ** Concrete stores

    Records and stores on which the model is run below; the download
    path is [/downloads]. *)
Module Example.

Definition pausedNoUrls : IDownload :=
  {| state := "paused"; localPath := Some "a.zip"; urls := None;
     size := Some 100; received := Some 0; chunks := None;
     game := Some "skyrim" |}.

Definition initNoUrls : IDownload :=
  {| state := "init"; localPath := Some "b.zip"; urls := None;
     size := None; received := None; chunks := None;
     game := Some "skyrim" |}.

Definition pausedWithUrls : IDownload :=
  {| state := "paused"; localPath := Some "c.zip";
     urls := Some ["http://host/c.zip"];
     size := Some 100; received := Some 40;
     chunks := Some [{| chunk_size := Some 60 |}];
     game := Some "skyrim" |}.

(** The sizes of the chunks add up to more than the size. *)
Definition startedOverrun : IDownload :=
  {| state := "started"; localPath := Some "d.zip";
     urls := Some ["http://host/d.zip"];
     size := Some 10; received := Some 0;
     chunks := Some [{| chunk_size := Some 20 |}];
     game := Some "skyrim" |}.

Definition started : IDownload :=
  {| state := "started"; localPath := Some "e.zip";
     urls := Some ["http://host/e.zip"];
     size := Some 100; received := Some 0;
     chunks := Some [{| chunk_size := Some 30 |}; {| chunk_size := Some 30 |}];
     game := Some "skyrim" |}.

Definition finishedNoPath : IDownload :=
  {| state := "finished"; localPath := None; urls := Some [];
     size := Some 5; received := Some 5; chunks := Some [];
     game := Some "skyrim" |}.

Definition finished : IDownload :=
  {| state := "finished"; localPath := Some "mod.zip"; urls := Some [];
     size := Some 5; received := Some 5; chunks := Some [];
     game := Some "skyrim" |}.

Definition store (fs : gmap string IDownload) : Downloads :=
  {| files := fs; speed := Some 0; speedHistory := [] |}.

Definition stalled : Downloads :=
  store (<["dl1" := pausedNoUrls]> (<["dl2" := initNoUrls]> ∅)).

Definition resumable : Downloads :=
  store (<["dl3" := pausedWithUrls]>
           (<["dl4" := startedOverrun]> (<["dl5" := started]> ∅))).

Definition library : Downloads :=
  store (<["dl6" := finishedNoPath]> (<["dl7" := finished]> ∅)).

(** Every removal succeeds; the removal of [/downloads/b.zip] fails. *)
Definition removesAll (p : string) : bool := true.
Definition keepsB (p : string) : bool :=
  negb (String.eqb p "/downloads/b.zip").

(** An import onto an existing archive: the user chooses to replace it,
    the old archive is removed, and then the copy fails. *)
Definition copyFails : ImportEnv :=
  {| destinationStat := Resolved {| stat_size := 5; isDirectory := false |};
     dialogAction := "Replace";
     removeOutcome := Resolved tt;
     copyOutcome := Rejected "ENOSPC";
     copiedStat := Rejected "ENOENT" |}.

Definition anyStat : HandlerEnv :=
  {| statOutcome := Resolved {| stat_size := 7; isDirectory := false |};
     freshId := "new1" |}.

End Example.

(** ** More concrete inputs

    A store with one archive, directories to refresh it from, an import
    that succeeds, and two objects of categories. *)
Module Sample.

Definition shelf : Downloads :=
  Example.store (<["dl7" := Example.finished]> ∅).

Definition fileStat : fsResult Stats :=
  Resolved {| stat_size := 5; isDirectory := false |}.

(** The directory holds the archive of the shelf and a text file. *)
Definition inStep : RefreshEnv :=
  {| dirWritable := Resolved tt;
     readdir := Resolved ["mod.zip"; "notes.txt"];
     scanStat := fun _ => fileStat;
     addStat := fun _ => fileStat;
     shortid := fun n => "id-" +:+ n |}.

Definition unreadable : RefreshEnv :=
  {| dirWritable := Resolved tt;
     readdir := Rejected "EACCES";
     scanStat := fun _ => fileStat;
     addStat := fun _ => fileStat;
     shortid := fun n => "id-" +:+ n |}.

(** The directory holds a new archive only, which is gone again when
    the refresh gets to add it. *)
Definition vanished : RefreshEnv :=
  {| dirWritable := Resolved tt;
     readdir := Resolved ["new.7z"];
     scanStat := fun _ => fileStat;
     addStat := fun _ => Rejected "ENOENT";
     shortid := fun n => "id-" +:+ n |}.

Definition downloadPathForGame (gameId : string) : string := "/downloads".

Definition getNormalizeFunc (p : string) : fsResult (string -> string) :=
  Resolved Posix.toLowerCase.

Definition appears : HandlerEnv :=
  {| statOutcome := fileStat; freshId := "n1" |}.

Definition imported : IDownload :=
  Reducer.progress 9 9 [] None
    (Reducer.localDownload (Some "skyrim") "mod.zip" 0).

Definition replaceSucceeds : ImportEnv :=
  {| destinationStat := fileStat;
     dialogAction := "Replace";
     removeOutcome := Resolved tt;
     copyOutcome := Resolved tt;
     copiedStat := Resolved {| stat_size := 9; isDirectory := false |} |}.

Definition noSubtitle (element : string) (mods : unit) : string := "".

Definition armor : gmap string Category.ICategory :=
  <["1" := {| Category.name := "Armor"; Category.parentCategory := None |}]>
    (<["2" := {| Category.name := "Heavy";
                 Category.parentCategory := Some "1" |}]> ∅).

Definition loop : gmap string Category.ICategory :=
  <["3" := {| Category.name := "Loop";
              Category.parentCategory := Some "3" |}]> ∅.

End Sample.

(** * Properties *)

Section Properties.

Variable extname : string -> string.
Variable toLowerCase : string -> string.
Variable join : string -> string -> string.
Variable basename : string -> string.
Variable getDownloadGames : IDownload -> list string.

Local Abbreviation knownExt := (knownArchiveExt extname toLowerCase).
Local Abbreviation handler := (downloadChangeHandler extname toLowerCase).
Local Abbreviation update :=
  (updateDownloadPath extname toLowerCase join getDownloadGames).

(** ** The archive-extension filter *)

Lemma archiveExtLookup_elems (x : string) :
  x ∈ archiveExtLookup <->
  In x [".zip"; ".z01"; ".7z"; ".rar"; ".r00"; ".001"; ".bz2"; ".bzip2";
        ".gz"; ".gzip"; ".xz"; ".z"; ".fomod"].
Proof.
  unfold archiveExtLookup. rewrite elem_of_list_to_set.
  apply list_elem_of_In.
Qed.

Lemma truthy_string_true (p : string) : truthy p = true <-> p <> "".
Proof.
  unfold truthy, truthy_string. rewrite negb_true_iff.
  split.
  - intros H ->. discriminate.
  - intros H. apply String.eqb_neq. exact H.
Qed.

Lemma knownArchiveExt_true (fileName : option string) :
  knownExt fileName = true <->
  exists p, fileName = Some p /\ p <> ""
            /\ toLowerCase (extname p) ∈ archiveExtLookup.
Proof.
  unfold knownArchiveExt. destruct fileName as [p|]; simpl.
  - change (truthy (Some p)) with (truthy p).
    destruct (truthy p) eqn:Ht; simpl.
    + rewrite bool_decide_eq_true. apply truthy_string_true in Ht.
      split; [intros H; exists p; auto | intros (q & [= <-] & _ & H); exact H].
    + split; [discriminate |].
      intros (q & [= <-] & Hq & _). apply truthy_string_true in Hq. congruence.
  - split; [discriminate | intros (q & [=] & _)].
Qed.

(** Effects of [promiseMap] come from calls of the callback on names of
    the list, in states that satisfy what the callback preserves. *)
Lemma promiseMap_inv {S : Type} (P : S -> Prop)
      (f : string -> S -> fsResult (S * list effect))
      (names : list string) (st : S) :
  P st ->
  (forall n st1 st2 es,
      In n names -> P st1 -> f n st1 = Resolved (st2, es) -> P st2) ->
  P (fst (fst (promiseMap f names st)))
  /\ forall e, In e (snd (fst (promiseMap f names st))) ->
               exists n st1 st2 es,
                 In n names /\ P st1 /\ f n st1 = Resolved (st2, es)
                 /\ In e es.
Proof.
  revert st. induction names as [|n rest IH]; intros st Hst Hf; simpl.
  - split; [exact Hst | intros e []].
  - assert (Hrest : forall m st1 st2 es,
               In m rest -> P st1 -> f m st1 = Resolved (st2, es) -> P st2)
      by (intros m st1 st2 es Hm; apply Hf; right; exact Hm).
    destruct (f n st) as [[st1 es1]|code] eqn:Hfn; simpl.
    + assert (Hst1 : P st1) by (eapply Hf; eauto; left; reflexivity).
      destruct (IH st1 Hst1 Hrest) as [Hend Heff].
      split; [exact Hend|]. intros e He.
      apply in_app_iff in He as [He|He].
      * exists n, st, st1, es1. auto.
      * destruct (Heff e He) as (m & a & b & es & Hm & Ha & Hfm & Hes).
        exists m, a, b, es. auto.
    + destruct (IH st Hst Hrest) as [Hend Heff].
      split; [exact Hend|]. intros e He.
      destruct (Heff e He) as (m & a & b & es & Hm & Ha & Hfm & Hes).
      exists m, a, b, es. auto.
Qed.

Local Abbreviation scan := (scanned extname toLowerCase join).

(** The names [refreshDownloads] hands to [onAddDownload] are entries the
    scan keeps whose normalized name is not known; those it hands to
    [onRemoveDownload] are known names that no kept entry normalizes
    to. *)
Lemma refreshDownloads_effects {S : Type} (P : S -> Prop) (env : RefreshEnv)
      (downloadPath : string) (known : list string)
      (normalize : string -> string)
      (onAdd onRemove : string -> S -> fsResult (S * list effect))
      (st : S) (e : effect) :
  P st ->
  (forall entries n st1 st2 es,
      readdir env = Resolved entries -> scan env downloadPath entries n ->
      P st1 -> onAdd n st1 = Resolved (st2, es) -> P st2) ->
  (forall n st1 st2 es,
      P st1 -> onRemove n st1 = Resolved (st2, es) -> P st2) ->
  In e (snd (fst (refreshDownloads extname toLowerCase join env downloadPath
                    known normalize onAdd onRemove st))) ->
  exists entries, readdir env = Resolved entries /\
  ((exists n st1 st2 es,
      scan env downloadPath entries n
      /\ negb (bool_decide (normalize n ∈ known)) = true
      /\ P st1 /\ onAdd n st1 = Resolved (st2, es) /\ In e es)
   \/ (exists n st1 st2 es,
         In n known
         /\ ~ (exists m, scan env downloadPath entries m /\ normalize m = n)
         /\ P st1 /\ onRemove n st1 = Resolved (st2, es) /\ In e es)).
Proof.
  intros Hst HaddP HremP. unfold refreshDownloads.
  destruct (dirWritable env); [|intros []].
  destruct (readdir env) as [entries|] eqn:Hdir; [|intros []].
  intros He. exists entries. split; [reflexivity|].
  set (names := List.filter _ (List.filter _ entries)) in *.
  assert (Hnames : forall n, In n names <-> scan env downloadPath entries n).
  { intros n. unfold names, scanned. rewrite !filter_In. split.
    - intros [[Hn Hk] Hs].
      destruct (scanStat env (join downloadPath n)) as [stat|];
        [|discriminate].
      apply negb_true_iff in Hs. eauto.
    - intros (Hn & Hk & stat & Hs & Hd). rewrite Hs, Hd. auto. }
  set (added := promiseMap onAdd _ st) in *.
  destruct (promiseMap_inv P onAdd
              (List.filter
                 (fun name => negb (bool_decide (normalize name ∈ known)))
                 names) st Hst) as [Hend Hadd].
  { intros n st1 st2 es Hn. apply filter_In in Hn as [Hn _].
    apply (HaddP entries); [reflexivity | apply Hnames, Hn]. }
  fold added in Hend, Hadd.
  assert (Hadded : In e (snd (fst added)) ->
                   exists n st1 st2 es,
                     scan env downloadPath entries n
                     /\ negb (bool_decide (normalize n ∈ known)) = true
                     /\ P st1 /\ onAdd n st1 = Resolved (st2, es)
                     /\ In e es).
  { intros H. destruct (Hadd e H) as (n & st1 & st2 & es & Hn & HP & Hf & Hes).
    apply filter_In in Hn as [Hn Hnew].
    exists n, st1, st2, es. repeat split; auto; apply Hnames, Hn. }
  destruct (snd added) eqn:Hout.
  - left. apply Hadded, He.
  - simpl in He. apply in_app_iff in He as [He|He]; [left; auto|].
    right.
    destruct (promiseMap_inv P onRemove
                (List.filter
                   (fun name =>
                      negb (bool_decide (name ∈ map normalize names)))
                   known) (fst (fst added)) Hend) as [_ Hrem].
    { intros n st1 st2 es _. apply HremP. }
    destruct (Hrem e He) as (n & st1 & st2 & es & Hn & HP & Hf & Hes).
    apply filter_In in Hn as [Hn Hgone].
    exists n, st1, st2, es. repeat split; auto.
    intros (m & Hm & Hnm).
    apply negb_true_iff, bool_decide_eq_false in Hgone. apply Hgone.
    apply list_elem_of_In, in_map_iff. exists m. split; [exact Hnm|].
    apply Hnames, Hm.
Qed.

Lemma dropFinishedNoLocalPath_effects (id : string) (d : IDownload)
      (e : effect) :
  In e (dropFinishedNoLocalPath id d) ->
  e = Dispatch (removeDownload (Some id))
  /\ state d = "finished" /\ truthy (localPath d) = false.
Proof.
  unfold dropFinishedNoLocalPath.
  destruct (String.eqb (state d) "finished") eqn:Hs; simpl; [|intros []].
  destruct (truthy (localPath d)) eqn:Ht; simpl; [intros []|].
  intros [<-|[]]. apply String.eqb_eq in Hs. auto.
Qed.

(** A name of [nameIdMap] is the normalized localPath of the record it
    is mapped to. *)
Lemma buildNameIdMap_lookup (normalize : string -> string)
      (downloads : gmap string IDownload) (name id : string) :
  buildNameIdMap normalize downloads !! name = Some id ->
  exists d lp, downloads !! id = Some d /\ localPath d = Some lp
               /\ normalize lp = name.
Proof.
  unfold buildNameIdMap.
  assert (H : forall (l : list (string * IDownload))
                     (acc : gmap string string),
             fold_left
               (fun prev kv =>
                  match localPath (snd kv) with
                  | Some lp => <[normalize lp := fst kv]> prev
                  | None => prev
                  end) l acc !! name = Some id ->
             acc !! name = Some id
             \/ exists d lp, In (id, d) l /\ localPath d = Some lp
                             /\ normalize lp = name).
  { induction l as [|[i d] l IH]; intros acc; simpl; [auto|].
    intros Hl. apply IH in Hl as [Hl|(d' & lp & Hin & Hlp & Hn)];
      [|right; exists d', lp; auto].
    destruct (localPath d) as [lp|] eqn:Hlp; [|auto].
    rewrite lookup_insert in Hl. case_decide as Hname; [|auto].
    injection Hl as ->. right. exists d, lp. auto. }
  intros Hl. apply H in Hl as [Hl|(d & lp & Hin & Hlp & Hn)].
  - rewrite lookup_empty in Hl. discriminate.
  - apply list_elem_of_In, elem_of_map_to_list in Hin. eauto.
Qed.

(** Every effect of [updateDownloadPath], with the reason for it. *)
Lemma updateDownloadPath_effects (env : RefreshEnv)
      (activeGameId : option string) (downloadPathForGame : string -> string)
      (getNormalizeFunc : string -> fsResult (string -> string))
      (gameId : option string) (s : Downloads) (e : effect) :
  In e (fst (update env activeGameId downloadPathForGame getNormalizeFunc
               gameId s)) ->
  (exists id d, files s !! id = Some d
                /\ e = Dispatch (removeDownload (Some id))
                /\ state d = "finished" /\ truthy (localPath d) = false)
  \/ (exists n g entries,
        readdir env = Resolved entries /\ In n entries
        /\ knownExt (Some n) = true
        /\ e = Dispatch (addLocalDownload (shortid env n) (Some g) n
                           (match addStat env (join (downloadPathForGame g) n)
                            with
                            | Resolved stats => stat_size stats
                            | Rejected _ => 0
                            end)))
  \/ (exists n g normalize entries,
        getNormalizeFunc (downloadPathForGame g) = Resolved normalize
        /\ readdir env = Resolved entries
        /\ In n (knownDLs getDownloadGames normalize g (files s))
        /\ ~ (exists m, scan env (downloadPathForGame g) entries m
                        /\ normalize m = n)
        /\ e = Dispatch (removeDownload
                           (buildNameIdMap normalize (files s) !! n)))
  \/ e = Emit "downloads-refreshed" [].
Proof using extname toLowerCase join getDownloadGames.
  unfold updateDownloadPath.
  set (dropped := flat_map _ (map_to_list (files s))).
  assert (Hdrop : In e dropped ->
                  exists id d, files s !! id = Some d
                    /\ e = Dispatch (removeDownload (Some id))
                    /\ state d = "finished"
                    /\ truthy (localPath d) = false).
  { intros H. apply in_flat_map in H as ([id d] & Hin & He).
    apply list_elem_of_In, elem_of_map_to_list in Hin.
    apply dropFinishedNoLocalPath_effects in He as (He & Hst & Hlp).
    exists id, d. simpl in *. auto. }
  destruct (match gameId with Some g => Some g | None => activeGameId end)
    as [g|]; simpl; [|left; auto].
  destruct (getNormalizeFunc (downloadPathForGame g)) as [normalize|] eqn:Hn;
    simpl; [|left; auto].
  rewrite !in_app_iff. intros [He|[He|[<-|[]]]]; [left; auto| |auto].
  right.
  apply (refreshDownloads_effects
           (fun names : gmap string string =>
              forall entries n,
                readdir env = Resolved entries ->
                ~ (exists m, scan env (downloadPathForGame g) entries m
                             /\ normalize m = n) ->
                names !! n = buildNameIdMap normalize (files s) !! n))
    in He.
  - destruct He as (entries & Hdir & [Hadd|Hrem]).
    + left.
      destruct Hadd as (n & st1 & st2 & es & (Hin & Hk & _) & _ & _ & Hf & Hes).
      exists n, g, entries. repeat split; auto.
      destruct (addStat env (join (downloadPathForGame g) n)); [|discriminate].
      injection Hf as <- <-. destruct Hes as [<-|[]]. reflexivity.
    + right. left.
      destruct Hrem as (n & st1 & st2 & es & Hin & Hgone & HP & Hf & Hes).
      injection Hf as <- <-. destruct Hes as [<-|[]].
      exists n, g, normalize, entries.
      rewrite (HP entries n Hdir Hgone). auto.
  - intros entries n _ _. reflexivity.
  - intros entries n st1 st2 es Hdir Hscan HP Hf entries' n' Hdir' Hgone.
    destruct (addStat env (join (downloadPathForGame g) n)); [|discriminate].
    injection Hf as <- <-.
    rewrite Hdir in Hdir'. injection Hdir' as <-.
    rewrite lookup_insert_ne; [apply (HP entries); assumption|].
    intros Heq. apply Hgone. exists n. auto.
  - intros n st1 st2 es HP [= <- <-]. exact HP.
Qed.

(** C10. [knownArchiveExt] is false for an undefined or empty path and
    otherwise true exactly when the lowercased extension of the path is
    one of the thirteen archive extensions; a file it rejects is ignored
    by the change handler (no effect, handler unchanged, whatever the
    event) and is never added by the scan of the download directory. *)
Theorem knownArchiveExt_filters (fileName : option string) :
  (knownExt fileName = true <->
   exists p, fileName = Some p /\ p <> ""
     /\ In (toLowerCase (extname p))
           [".zip"; ".z01"; ".7z"; ".rar"; ".r00"; ".001"; ".bz2"; ".bzip2";
            ".gz"; ".gzip"; ".xz"; ".z"; ".fomod"])
  /\ (knownExt fileName = false ->
      (forall normalize gameId env evt w s,
          handler normalize gameId env evt fileName w s = (w, []))
      /\ (forall env activeGameId downloadPathForGame getNormalizeFunc
                 gameId s name id g fileSize,
             fileName = Some name ->
             ~ In (Dispatch (addLocalDownload id g name fileSize))
                  (fst (update env activeGameId downloadPathForGame
                          getNormalizeFunc gameId s)))).
Proof using extname toLowerCase join getDownloadGames.
  split.
  - rewrite knownArchiveExt_true.
    split; intros (p & Hp & Hne & Hin); exists p; repeat split; auto;
      apply archiveExtLookup_elems; exact Hin.
  - intros Hno. split.
    + intros normalize gameId env evt w s. unfold downloadChangeHandler.
      rewrite Hno. simpl. rewrite orb_true_r. reflexivity.
    + intros env activeGameId downloadPathForGame getNormalizeFunc gameId s
             name id g fileSize -> Hin.
      apply updateDownloadPath_effects in Hin.
      destruct Hin as [(i & d & _ & He & _)
                      |[(n & g' & entries & _ & _ & Hk & He)
                       |[(n & g' & nz & entries & _ & _ & _ & _ & He)
                        |He]]];
        try discriminate.
      injection He as _ _ -> _. congruence.
Qed.

(** ** The reducer on lists of actions *)

Lemma dispatched_app (es1 es2 : list effect) :
  dispatched (es1 ++ es2) = dispatched es1 ++ dispatched es2.
Proof. unfold dispatched. apply omap_app. Qed.

Lemma dispatched_In (a : action) (es : list effect) :
  In a (dispatched es) <-> In (Dispatch a) es.
Proof.
  unfold dispatched. rewrite <- !list_elem_of_In, list_elem_of_omap.
  split.
  - intros (e & He & Ha). destruct e; try discriminate.
    injection Ha as ->. exact He.
  - intros He. exists (Dispatch a). auto.
Qed.

Lemma reduce_untouched (s : Downloads) (a : action) (id : string) :
  touches id a = false -> files (Reducer.reduce s a) !! id = files s !! id.
Proof.
  destruct a as [i g f z|[i|]|i r|i r t cs us|v|vs]; simpl; intros H;
    try reflexivity; apply bool_decide_eq_false in H.
  - apply lookup_insert_ne, H.
  - apply lookup_delete_ne, H.
  - apply lookup_alter_ne, H.
  - apply lookup_alter_ne, H.
Qed.

Lemma reduceAll_untouched (acts : list action) (s : Downloads) (id : string) :
  existsb (touches id) acts = false ->
  files (Reducer.reduceAll s acts) !! id = files s !! id.
Proof.
  unfold Reducer.reduceAll. revert s.
  induction acts as [|a acts IH]; intros s; simpl; [reflexivity|].
  intros H. apply orb_false_iff in H as [Ha Hacts].
  rewrite IH by exact Hacts. apply reduce_untouched, Ha.
Qed.

Lemma reduce_absent (s : Downloads) (a : action) (id : string) :
  isAdd id a = false -> files s !! id = None ->
  files (Reducer.reduce s a) !! id = None.
Proof.
  destruct a as [i g f z|[i|]|i r|i r t cs us|v|vs]; simpl; intros H Hs;
    try exact Hs.
  - apply bool_decide_eq_false in H. rewrite lookup_insert_ne; auto.
  - rewrite lookup_delete, Hs. case_decide; reflexivity.
  - rewrite lookup_alter, Hs. case_decide; subst; try rewrite Hs; reflexivity.
  - rewrite lookup_alter, Hs. case_decide; subst; try rewrite Hs; reflexivity.
Qed.

Lemma reduceAll_absent (acts : list action) (s : Downloads) (id : string) :
  existsb (isAdd id) acts = false -> files s !! id = None ->
  files (Reducer.reduceAll s acts) !! id = None.
Proof.
  unfold Reducer.reduceAll. revert s.
  induction acts as [|a acts IH]; intros s; simpl; [auto|].
  intros H Hs. apply orb_false_iff in H as [Ha Hacts].
  apply IH; [exact Hacts|]. apply reduce_absent; assumption.
Qed.

(** A record whose removal is dispatched, and that nothing adds again, is
    gone. *)
Lemma reduceAll_removed (acts : list action) (s : Downloads) (id : string) :
  existsb (isAdd id) acts = false ->
  In (removeDownload (Some id)) acts ->
  files (Reducer.reduceAll s acts) !! id = None.
Proof.
  unfold Reducer.reduceAll. revert s.
  induction acts as [|a acts IH]; intros s; simpl; [intros _ []|].
  intros H [->|Hin]; apply orb_false_iff in H as [Ha Hacts].
  - apply reduceAll_absent; [exact Hacts|]. simpl. apply lookup_delete_eq.
  - apply IH; assumption.
Qed.

Lemma interrupt_twice (r : JS.number) (d : IDownload) :
  Reducer.interrupt r (Reducer.interrupt r d) = Reducer.interrupt r d.
Proof. reflexivity. Qed.

(** If the only actions on a record are [setDownloadInterrupted] with one
    and the same byte count, the record ends up interrupted with it. *)
Lemma reduceAll_interrupted (acts : list action) (s : Downloads)
      (id : string) (r : JS.number) :
  (forall a, In a acts -> touches id a = true ->
             a = setDownloadInterrupted id r) ->
  files (Reducer.reduceAll s acts) !! id =
  if existsb (touches id) acts
  then Reducer.interrupt r <$> files s !! id
  else files s !! id.
Proof.
  unfold Reducer.reduceAll. revert s.
  induction acts as [|a acts IH]; intros s Hall; simpl; [reflexivity|].
  rewrite IH by (intros b Hb; apply Hall; right; exact Hb).
  destruct (touches id a) eqn:Ha; simpl.
  - rewrite (Hall a (or_introl eq_refl) Ha). simpl.
    rewrite lookup_alter_eq.
    destruct (files s !! id); destruct (existsb (touches id) acts);
      reflexivity.
  - rewrite (reduce_untouched _ _ _ Ha). reflexivity.
Qed.

(** ** Startup recovery *)

Local Abbreviation recover := (recoverDownloads join).
Local Abbreviation perRecord := (recordEffects join).

Lemma isInterrupted_true (d : IDownload) :
  isInterrupted d = true <-> state d ∈ interruptedStates.
Proof. unfold isInterrupted. apply bool_decide_eq_true. Qed.

Lemma truthy_urls_false (d : IDownload) :
  truthy (urls d) = false <-> urls d = None.
Proof. destruct (urls d); cbv; split; congruence. Qed.

(** The effects of the recovery are those it has on behalf of the
    records of the store. *)
Lemma recoverDownloads_In (removed : string -> bool)
      (downloadPath : option string) (downloads : gmap string IDownload)
      (e : effect) :
  In e (recover removed downloadPath downloads) <->
  exists id d, downloads !! id = Some d
               /\ In e (perRecord removed downloadPath id d).
Proof.
  unfold recoverDownloads, recordEffects, interruptedDownloads.
  rewrite !in_app_iff, !in_flat_map. split.
  - intros [([id d] & Hin & He)|[([id d] & Hin & He)|([id d] & Hin & He)]];
      try apply filter_In in Hin as [Hin Hint];
      apply list_elem_of_In, elem_of_map_to_list in Hin;
      exists id, d; simpl in *; split; auto; rewrite !in_app_iff;
      try rewrite Hint; auto.
  - intros (id & d & Hd & He).
    apply elem_of_map_to_list, list_elem_of_In in Hd.
    rewrite !in_app_iff in He. destruct (isInterrupted d) eqn:Hint.
    + destruct He as [He|[He|He]].
      * left. exists (id, d). split; [apply filter_In|]; auto.
      * right. left. exists (id, d). auto.
      * right. right. exists (id, d). split; [apply filter_In|]; auto.
    + destruct He as [[]|[He|[]]]. right. left. exists (id, d). auto.
Qed.

(** What startup dispatches on behalf of one record, and why. *)
Lemma recordEffects_dispatch (removed : string -> bool)
      (downloadPath : option string) (id : string) (d : IDownload)
      (a : action) :
  In (Dispatch a) (perRecord removed downloadPath id d) ->
  (a = setDownloadInterrupted id (realSize d)
   /\ state d ∈ interruptedStates /\ is_Some (urls d))
  \/ (a = removeDownload (Some id)
      /\ state d ∈ interruptedStates /\ urls d = None)
  \/ (a = removeDownload (Some id) /\ truthy (localPath d) = false).
Proof.
  unfold recordEffects, recoverSync, recoverThen, dropNoLocalPath.
  rewrite !in_app_iff.
  destruct (isInterrupted d) eqn:Hint;
    [apply isInterrupted_true in Hint|];
    destruct (truthy (localPath d)) eqn:Hlp; simpl;
    destruct (urls d) as [us|] eqn:Hu; simpl;
    try (destruct downloadPath as [dp|]);
    try (destruct (localPath d) as [lp|] eqn:Hl);
    try (destruct (removed (join dp lp)));
    simpl; intros H; decompose [or] H; try contradiction;
    try discriminate;
    match goal with
    | E : Dispatch _ = Dispatch _ |- _ => injection E as <-
    end; eauto 6.
Qed.

Lemma recordEffects_touches (removed : string -> bool)
      (downloadPath : option string) (id id' : string) (d : IDownload)
      (a : action) :
  In (Dispatch a) (perRecord removed downloadPath id' d) ->
  touches id a = true -> id' = id.
Proof.
  intros H Ht. apply recordEffects_dispatch in H.
  destruct H as [(-> & _)|[(-> & _)|(-> & _)]]; simpl in Ht;
    apply bool_decide_eq_true in Ht; exact Ht.
Qed.

Lemma recoverDownloads_no_add (removed : string -> bool)
      (downloadPath : option string) (downloads : gmap string IDownload)
      (id : string) :
  existsb (isAdd id) (dispatched (recover removed downloadPath downloads))
  = false.
Proof.
  apply not_true_is_false. intros H.
  apply existsb_exists in H as (a & Ha & Hadd).
  apply dispatched_In, recoverDownloads_In in Ha as (i & d & _ & Ha).
  apply recordEffects_dispatch in Ha.
  destruct Ha as [(-> & _)|[(-> & _)|(-> & _)]]; discriminate.
Qed.


(** C3 (as amended). A record in state [init], [started] or [pending]
    with retrieved urls is, after startup, interrupted with the byte
    count [realSize] if it has a non-empty localPath, and removed if it
    has none; it does not keep its previous state. *)
Theorem startup_interrupts (removed : string -> bool)
        (downloadPath : option string) (s : Downloads)
        (id : string) (d : IDownload) :
  files s !! id = Some d ->
  state d ∈ interruptedStates ->
  is_Some (urls d) ->
  In (Dispatch (setDownloadInterrupted id (realSize d)))
     (recover removed downloadPath (files s))
  /\ files (startup join removed downloadPath s) !! id =
     (if truthy (localPath d)
      then Some (Reducer.interrupt (realSize d) d)
      else None)
  /\ (forall d', files (startup join removed downloadPath s) !! id = Some d'
                 -> state d' = "interrupted").
Proof.
  intros Hd Hst [us Hu].
  assert (Hint : isInterrupted d = true) by (apply isInterrupted_true, Hst).
  assert (Hsync : In (Dispatch (setDownloadInterrupted id (realSize d)))
                     (recover removed downloadPath (files s))).
  { apply recoverDownloads_In. exists id, d. split; [exact Hd|].
    unfold recordEffects, recoverSync. rewrite Hint, Hu.
    rewrite !in_app_iff. simpl. left. left. reflexivity. }
  assert (Hres : files (startup join removed downloadPath s) !! id =
                 (if truthy (localPath d)
                  then Some (Reducer.interrupt (realSize d) d)
                  else None)).
  { unfold startup, applyEffects.
    destruct (truthy (localPath d)) eqn:Hlp.
    - rewrite (reduceAll_interrupted _ _ id (realSize d)).
      + rewrite Hd.
        replace (existsb _ _) with true; [reflexivity|].
        symmetry. apply existsb_exists.
        exists (setDownloadInterrupted id (realSize d)).
        split; [apply dispatched_In, Hsync|].
        simpl. apply bool_decide_eq_true_2. reflexivity.
      + intros a Ha Ht.
        apply dispatched_In, recoverDownloads_In in Ha as (i & d' & Hd' & Ha).
        pose proof (recordEffects_touches _ _ _ _ _ _ Ha Ht) as ->.
        rewrite Hd in Hd'. injection Hd' as <-.
        apply recordEffects_dispatch in Ha.
        destruct Ha as [(-> & _)|[(_ & _ & Hn)|(_ & Hn)]]; congruence.
    - apply reduceAll_removed; [apply recoverDownloads_no_add|].
      apply dispatched_In, recoverDownloads_In. exists id, d.
      split; [exact Hd|].
      unfold recordEffects, dropNoLocalPath. rewrite Hlp.
      rewrite !in_app_iff. simpl. right. left. left. reflexivity. }
  split; [exact Hsync|]. split; [exact Hres|].
  intros d' Hd'. rewrite Hres in Hd'.
  destruct (truthy (localPath d)); [|discriminate].
  injection Hd' as <-. reflexivity.
Qed.

(** ** The byte count of an interrupted download *)

Lemma sum_from_NaN (l : list JS.number) : fold_left JS.add l JS.NaN = JS.NaN.
Proof. induction l as [|x l IH]; simpl; [reflexivity | exact IH]. Qed.

Lemma sum_of_numbers (zs : list Z) (a : Z) :
  fold_left JS.add (map JS.Num zs) (JS.Num a)
  = JS.Num (a + fold_right Z.add 0 zs).
Proof.
  revert a. induction zs as [|z zs IH]; intros a; simpl.
  - f_equal. lia.
  - rewrite IH. f_equal. lia.
Qed.

Lemma sum_with_NaN (l : list JS.number) (a : JS.number) :
  In JS.NaN l -> fold_left JS.add l a = JS.NaN.
Proof.
  revert a. induction l as [|x l IH]; intros a; simpl; [intros []|].
  intros [->|Hin].
  - destruct a; simpl; apply sum_from_NaN.
  - apply IH, Hin.
Qed.

(** C2 (as amended). The byte count handed to [setDownloadInterrupted]
    for a record is [realSize]: a number, never [NaN]; 0 when the size
    is 0 or undefined, or when a chunk has no size; and otherwise the
    size minus the sum of the sizes of the chunks, whatever its sign:
    a sum above the size gives a negative count, it is not clamped. *)
Theorem realSize_value (d : IDownload) :
  realSize d <> JS.NaN
  /\ (size d = Some 0 \/ size d = None -> realSize d = JS.Num 0)
  /\ (In None (map chunk_size (default [] (chunks d))) ->
      realSize d = JS.Num 0)
  /\ (forall total sizes,
         size d = Some total -> total <> 0 ->
         map chunk_size (default [] (chunks d)) = map Some sizes ->
         realSize d = JS.Num (total - fold_right Z.add 0 sizes))
  /\ (forall removed downloadPath downloads id r,
         downloads !! id = Some d ->
         In (Dispatch (setDownloadInterrupted id r))
            (recover removed downloadPath downloads) ->
         r = realSize d).
Proof.
  split; [|split; [|split; [|split]]].
  - unfold realSize.
    destruct (JS.neq_zero (size d)); [|discriminate].
    destruct (JS.sub _ _) eqn:E; simpl; congruence.
  - unfold realSize. intros [->| ->]; reflexivity.
  - intros Hin. unfold realSize.
    destruct (JS.neq_zero (size d)); [|reflexivity].
    unfold sum. rewrite sum_with_NaN.
    + destruct (JS.toNumber (size d)); reflexivity.
    + apply in_map_iff in Hin as (c & Hc & Hin).
      apply in_map_iff. exists c. rewrite Hc. auto.
  - intros total sizes Hs Hne Hcs. unfold realSize. rewrite Hs.
    replace (JS.neq_zero (Some total)) with true
      by (destruct total; [congruence|reflexivity|reflexivity]).
    replace (map (fun chunk => JS.toNumber (chunk_size chunk))
                 (default [] (chunks d)))
      with (map JS.Num sizes).
    + unfold sum. rewrite sum_of_numbers. reflexivity.
    + rewrite <- (map_map chunk_size JS.toNumber), Hcs, map_map.
      reflexivity.
  - intros removed downloadPath downloads id r Hd Hin.
    apply recoverDownloads_In in Hin as (i & d' & Hd' & Hin).
    pose proof (recordEffects_touches _ _ id i d' _ Hin) as Hi.
    simpl in Hi. rewrite bool_decide_eq_true_2 in Hi by reflexivity.
    specialize (Hi eq_refl). subst i.
    rewrite Hd in Hd'. injection Hd' as <-.
    apply recordEffects_dispatch in Hin.
    destruct Hin as [(Ha & _)|[(Ha & _)|(Ha & _)]]; congruence.
Qed.

(** ** Files deleted at startup *)

Lemma recordEffects_removes (removed : string -> bool)
      (downloadPath : option string) (id : string) (d : IDownload)
      (p : string) :
  In (FsRemove p) (perRecord removed downloadPath id d) ->
  state d ∈ interruptedStates /\ urls d = None
  /\ exists dp lp, downloadPath = Some dp /\ localPath d = Some lp
                   /\ p = join dp lp.
Proof.
  unfold recordEffects, recoverSync, recoverThen, dropNoLocalPath.
  rewrite !in_app_iff.
  destruct (isInterrupted d) eqn:Hint;
    [apply isInterrupted_true in Hint|];
    destruct (truthy (localPath d)) eqn:Hlp; simpl;
    destruct (urls d) as [us|] eqn:Hu; simpl;
    try (destruct downloadPath as [dp|]);
    try (destruct (localPath d) as [lp|] eqn:Hl);
    try (destruct (removed (join dp lp)));
    simpl; intros H; decompose [or] H; try contradiction;
    try discriminate;
    match goal with
    | E : FsRemove _ = FsRemove _ |- _ => injection E as <-
    end; eauto 8.
Qed.

(** C7. At startup a file is handed to [fs.removeAsync] only for a
    record in the never-started branch (state [init], [started] or
    [pending], urls never retrieved), and it is the file of that record
    under the download path; for every other record, the ones removed
    for having no localPath included, startup deletes no file. *)
Theorem startup_deletes_only_never_started (removed : string -> bool)
        (downloadPath : option string) (downloads : gmap string IDownload) :
  (forall p, In (FsRemove p) (recover removed downloadPath downloads) ->
             exists id d dp lp,
               downloads !! id = Some d
               /\ state d ∈ interruptedStates /\ urls d = None
               /\ downloadPath = Some dp /\ localPath d = Some lp
               /\ p = join dp lp)
  /\ (forall id d,
         downloads !! id = Some d ->
         ~ (state d ∈ interruptedStates /\ urls d = None) ->
         removedFiles (perRecord removed downloadPath id d) = []
         /\ (truthy (localPath d) = false ->
             In (Dispatch (removeDownload (Some id)))
                (recover removed downloadPath downloads))).
Proof using join.
  split.
  - intros p Hin. apply recoverDownloads_In in Hin as (id & d & Hd & Hin).
    apply recordEffects_removes in Hin
      as (Hst & Hu & dp & lp & Hdp & Hlp & Hp).
    exists id, d, dp, lp. auto 7.
  - intros id d Hd Hnot. split.
    + destruct (removedFiles (perRecord removed downloadPath id d))
        as [|p ps] eqn:E; [reflexivity|].
      exfalso. apply Hnot.
      assert (Hin : In p (removedFiles (perRecord removed downloadPath id d)))
        by (rewrite E; left; reflexivity).
      unfold removedFiles in Hin.
      apply list_elem_of_In, list_elem_of_omap in Hin as (e & He & Hp).
      destruct e; try discriminate. injection Hp as ->.
      apply list_elem_of_In, recordEffects_removes in He.
      destruct He as (Hst & Hu & _). split; assumption.
    + intros Hlp. apply recoverDownloads_In. exists id, d.
      split; [exact Hd|].
      unfold recordEffects, dropNoLocalPath. rewrite Hlp.
      rewrite !in_app_iff. simpl. auto.
Qed.

(** ** The change handler *)

Lemma handler_timers (normalize : string -> string) (gameId : string)
      (env : HandlerEnv) (evt : string) (fileName : option string)
      (w : Watcher) (s : Downloads) :
  updateTimers (fst (handler normalize gameId env evt fileName w s))
  = updateTimers w.
Proof.
  unfold downloadChangeHandler.
  destruct (negb (watchEnabled w) || bool_decide (fileName = None)
            || negb (knownExt fileName)); [reflexivity|].
  destruct fileName as [name|]; [|reflexivity].
  destruct (String.eqb evt "update").
  - destruct (updateTimers w !! name); reflexivity.
  - destruct (String.eqb evt "rename"); [|reflexivity].
    destruct (statOutcome env); [|reflexivity].
    destruct (findDownload s name); reflexivity.
Qed.

Lemma watchStep_timers (normalize : string -> string) (gameId : string)
      (i : watchInput) (ws : Watcher * Downloads) :
  updateTimers
    (fst (fst (watchStep extname toLowerCase normalize gameId i ws)))
  = updateTimers (fst ws).
Proof.
  destruct i as [env evt fileName|enabled]; simpl; [|reflexivity].
  apply handler_timers.
Qed.

(** No input ever sets a timer: the timers of a handler stay as
    [genDownloadChangeHandler] made them. *)
Lemma watchRun_timers (normalize : string -> string) (gameId : string)
      (inputs : list watchInput) (ws : Watcher * Downloads) :
  updateTimers
    (fst (fst (watchRun extname toLowerCase normalize gameId inputs ws)))
  = updateTimers (fst ws).
Proof.
  revert ws. induction inputs as [|i rest IH]; intros ws; simpl;
    [reflexivity|].
  rewrite IH. apply watchStep_timers.
Qed.

Lemma handler_update_no_timer (normalize : string -> string)
      (gameId : string) (env : HandlerEnv) (fileName : option string)
      (w : Watcher) (s : Downloads) :
  updateTimers w = ∅ ->
  handler normalize gameId env "update" fileName w s = (w, []).
Proof.
  intros Hw. unfold downloadChangeHandler.
  destruct (negb (watchEnabled w) || bool_decide (fileName = None)
            || negb (knownExt fileName)); [reflexivity|].
  destruct fileName as [name|]; [|reflexivity].
  simpl. rewrite Hw, lookup_empty. reflexivity.
Qed.

(** C9. Whatever inputs a change handler has received since
    [genDownloadChangeHandler] created it, an [update] event makes it
    dispatch nothing: its [updateTimers] are still empty, so the branch
    that dispatches the progress is not entered, and handler and store
    are as before. *)
Theorem update_event_changes_nothing (normalize : string -> string)
        (gameId : string) (enabled : bool) (names : gmap string string)
        (s0 : Downloads) (inputs : list watchInput)
        (env : HandlerEnv) (fileName : option string) :
  let ws := fst (watchRun extname toLowerCase normalize gameId inputs
                   (genDownloadChangeHandler enabled names, s0)) in
  updateTimers (fst ws) = ∅
  /\ handler normalize gameId env "update" fileName (fst ws) (snd ws)
     = (fst ws, [])
  /\ watchStep extname toLowerCase normalize gameId
       (FsEvent env "update" fileName) ws = (ws, []).
Proof.
  intros ws.
  assert (Hw : updateTimers (fst ws) = ∅)
    by (unfold ws; rewrite watchRun_timers; reflexivity).
  split; [exact Hw|].
  pose proof (handler_update_no_timer normalize gameId env fileName
                (fst ws) (snd ws) Hw) as Hh.
  split; [exact Hh|].
  unfold watchStep. rewrite Hh. simpl. destruct ws; reflexivity.
Qed.

(** ** Importing a file *)

Lemma reduceAll_app (s : Downloads) (xs ys : list action) :
  Reducer.reduceAll s (xs ++ ys)
  = Reducer.reduceAll (Reducer.reduceAll s xs) ys.
Proof. unfold Reducer.reduceAll. apply fold_left_app. Qed.

Lemma removeArchive_effects (env : ImportEnv) (destination : string)
      (s : Downloads) (a : action) :
  In (Dispatch a) (fst (removeArchive basename env destination s)) ->
  exists id d, a = removeDownload (Some id) /\ files s !! id = Some d
               /\ localPath d = Some (basename destination)
               /\ exists u, removeOutcome env = Resolved u.
Proof.
  unfold removeArchive. destruct (removeOutcome env) as [u|code]; simpl.
  - intros [Hin|Hin]; [discriminate|].
    apply in_flat_map in Hin as ([id d] & Hin & He). simpl in He.
    apply list_elem_of_In, elem_of_map_to_list in Hin.
    case_bool_decide; [|destruct He].
    destruct He as [[= <-]|[]]. exists id, d. eauto.
  - intros [Hin|[]]. discriminate.
Qed.

Lemma replacedEffects_dispatch (env : ImportEnv) (destination : string)
      (s : Downloads) (a : action) :
  In (Dispatch a) (replacedEffects basename env destination s) ->
  replaces env = true
  /\ exists id d, a = removeDownload (Some id) /\ files s !! id = Some d
                  /\ localPath d = Some (basename destination).
Proof.
  unfold replacedEffects, replaces, queryReplace.
  destruct (destinationStat env); [|intros []].
  destruct (String.eqb (dialogAction env) "Cancel"); [intros []|].
  intros Hin. apply removeArchive_effects in Hin
    as (id & d & -> & Hd & Hlp & u & ->).
  split; [reflexivity|]. exists id, d. auto.
Qed.

Lemma replacedEffects_none (env : ImportEnv) (destination : string)
      (s : Downloads) :
  replaces env = false ->
  dispatched (replacedEffects basename env destination s) = [].
Proof.
  intros Hno.
  destruct (dispatched (replacedEffects basename env destination s))
    as [|a l] eqn:E; [reflexivity|].
  assert (Hin : In a (dispatched
                        (replacedEffects basename env destination s)))
    by (rewrite E; left; reflexivity).
  apply dispatched_In, replacedEffects_dispatch in Hin as [Hyes _].
  congruence.
Qed.

(** The records after the replace query: those that do not carry the
    name of the destination, if the archive was replaced. *)
Lemma replacedEffects_files (env : ImportEnv) (destination : string)
      (s : Downloads) (id : string) :
  files (applyEffects s (replacedEffects basename env destination s)) !! id
  = match files s !! id with
    | Some d =>
        if replaces env
           && bool_decide (localPath d = Some (basename destination))
        then None else Some d
    | None => None
    end.
Proof.
  unfold applyEffects.
  set (es := replacedEffects basename env destination s).
  assert (Hnoadd : existsb (isAdd id) (dispatched es) = false).
  { apply not_true_is_false. intros H.
    apply existsb_exists in H as (a & Ha & Hadd).
    apply dispatched_In, replacedEffects_dispatch in Ha
      as (_ & i & d & -> & _). discriminate. }
  destruct (files s !! id) as [d|] eqn:Hd;
    [|apply reduceAll_absent; assumption].
  destruct (replaces env && bool_decide (localPath d = Some (basename destination)))
    eqn:Hrep.
  - apply andb_true_iff in Hrep as [Hrep Hlp].
    apply bool_decide_eq_true in Hlp.
    apply reduceAll_removed; [exact Hnoadd|].
    apply dispatched_In. unfold es, replacedEffects, queryReplace.
    unfold replaces in Hrep.
    destruct (destinationStat env); [|discriminate].
    destruct (removeOutcome env) as [u|] eqn:Hrm; [|discriminate].
    apply negb_true_iff in Hrep. rewrite Hrep.
    unfold removeArchive. rewrite Hrm. simpl. right.
    apply in_flat_map. exists (id, d). split.
    + apply list_elem_of_In, elem_of_map_to_list, Hd.
    + simpl. rewrite bool_decide_eq_true_2 by exact Hlp. left. reflexivity.
  - rewrite reduceAll_untouched; [exact Hd|].
    apply not_true_is_false. intros H.
    apply existsb_exists in H as (a & Ha & Ht).
    apply dispatched_In, replacedEffects_dispatch in Ha
      as (Hyes & i & d' & -> & Hd' & Hlp).
    simpl in Ht. apply bool_decide_eq_true in Ht. subst i.
    rewrite Hd in Hd'. injection Hd' as <-.
    rewrite Hyes, bool_decide_eq_true_2 in Hrep by exact Hlp.
    discriminate.
Qed.

Lemma move_failed_shape (env : ImportEnv) (gameMode : option string)
      (dlId source destination : string) (s : Downloads) :
  moveFailed env = true ->
  let replaced := replacedEffects basename env destination s in
  move basename env gameMode dlId source destination s
  = replaced ++ [Dispatch (removeDownload (Some dlId))]
  \/ move basename env gameMode dlId source destination s
     = replaced
       ++ [Dispatch (addLocalDownload dlId gameMode (basename destination) 0);
           FsCopy source destination;
           Dispatch (removeDownload (Some dlId))].
Proof.
  unfold moveFailed, move, replacedEffects, queryReplace, removeArchive.
  destruct (destinationStat env);
    [destruct (String.eqb (dialogAction env) "Cancel");
     [|destruct (removeOutcome env)]|];
    simpl; try (intros _; left; reflexivity);
    destruct (copyOutcome env); try destruct (copiedStat env);
    simpl; intros H; try discriminate; right; reflexivity.
Qed.

Lemma rollback_files (s : Downloads) (dlId : string) (d : IDownload) :
  files s !! dlId = None ->
  delete dlId (files s) = files s
  /\ delete dlId (<[dlId := d]> (files s)) = files s.
Proof.
  intros H. split; [apply delete_id, H | apply delete_insert_id, H].
Qed.

(** C8 (as amended). If an import fails, the record it created (under a
    fresh id) is removed again: the records are as the replace query left
    them, that is, unchanged if no archive was replaced, and otherwise
    without the records that carried the name of the destination, which
    stay removed. *)
Theorem failed_import_rolls_back (env : ImportEnv)
        (gameMode : option string) (dlId source destination : string)
        (s : Downloads) :
  files s !! dlId = None ->
  moveFailed env = true ->
  let s' := applyEffects s
              (move basename env gameMode dlId source destination s) in
  files s' !! dlId = None
  /\ files s'
     = files (applyEffects s (replacedEffects basename env destination s))
  /\ (forall id,
         files s' !! id
         = match files s !! id with
           | Some d =>
               if replaces env
                  && bool_decide (localPath d = Some (basename destination))
               then None else Some d
           | None => None
           end)
  /\ (replaces env = false -> files s' = files s).
Proof.
  intros Hfresh Hfail s'.
  set (replaced := replacedEffects basename env destination s).
  assert (Hgone : files (applyEffects s replaced) !! dlId = None).
  { unfold replaced. rewrite replacedEffects_files, Hfresh. reflexivity. }
  assert (Heq : files s' = files (applyEffects s replaced)).
  { unfold s', applyEffects.
    destruct (move_failed_shape env gameMode dlId source destination s Hfail)
      as [-> | ->]; fold replaced;
      rewrite dispatched_app, reduceAll_app; simpl;
      apply (rollback_files _ _ (Reducer.localDownload gameMode
                                   (basename destination) 0)), Hgone. }
  assert (Hlook : forall id,
             files s' !! id
             = match files s !! id with
               | Some d =>
                   if replaces env
                      && bool_decide
                           (localPath d = Some (basename destination))
                   then None else Some d
               | None => None
               end).
  { intros id. rewrite Heq. apply replacedEffects_files. }
  split; [rewrite Heq; exact Hgone|].
  split; [exact Heq|]. split; [exact Hlook|].
  intros Hno. apply map_eq. intros id. rewrite Hlook, Hno. simpl.
  destruct (files s !! id); reflexivity.
Qed.

(** ** Reporting the speed *)

Lemma onSpeed_stored (v : Z) (s : Downloads) :
  storedSpeed (applyEffects s (onSpeed v s)) = Some v.
Proof.
  unfold onSpeed, storedSpeed.
  destruct (negb (v =? 0) || JS.neq_zero (speed s)) eqn:E.
  - reflexivity.
  - apply orb_false_iff in E as [Hv Hs].
    apply negb_false_iff, Z.eqb_eq in Hv. subst v.
    change (applyEffects s []) with s.
    destruct (speed s) as [[| |]|]; simpl in Hs; congruence.
Qed.

Lemma onSpeed_dispatch (v : Z) (s : Downloads) (a : action) :
  In (Dispatch a) (onSpeed v s) -> a = setDownloadSpeed v.
Proof.
  unfold onSpeed.
  destruct (negb (v =? 0) || JS.neq_zero (storedSpeed s)); simpl.
  - intros [[= <-]|[H|[]]]; [reflexivity | discriminate].
  - intros [].
Qed.

Lemma meterRate_nonneg (window : list N) (span : positive) :
  0 <= meterRate window span.
Proof. unfold meterRate. apply Z.div_pos; lia. Qed.

Lemma meterRate_idle (window : list N) (span : positive) :
  Forall (fun b => b = 0%N) window -> meterRate window span = 0.
Proof.
  intros H. unfold meterRate.
  replace (fold_right N.add 0%N window) with 0%N; [reflexivity|].
  induction H as [|b l -> _ IH]; simpl; [reflexivity|].
  rewrite <- IH. reflexivity.
Qed.

(** C5. Whatever rate the meter delivers to the callback, the speed in
    the store afterwards is that rate: it is present, it is not
    negative, every [setDownloadSpeed] the callback dispatches carries
    it, and it is exactly 0 if no byte moved in the window. *)
Theorem reported_speed_not_negative (window : list N) (span : positive)
        (s : Downloads) :
  let v := meterRate window span in
  let s' := applyEffects s (onSpeed v s) in
  storedSpeed s' = Some v
  /\ 0 <= v
  /\ (forall a, In (Dispatch a) (onSpeed v s) -> a = setDownloadSpeed v)
  /\ (Forall (fun b => b = 0%N) window -> storedSpeed s' = Some 0).
Proof.
  intros v s'. split; [apply onSpeed_stored|].
  split; [apply meterRate_nonneg|].
  split; [apply onSpeed_dispatch|].
  intros Hidle. unfold s'. rewrite onSpeed_stored. f_equal.
  apply meterRate_idle, Hidle.
Qed.

Lemma speedsReports_app (l1 l2 : list (Z * effect)) :
  speedsReports (l1 ++ l2) = speedsReports l1 ++ speedsReports l2.
Proof. unfold speedsReports. apply omap_app. Qed.

Lemma speedsReports_onSpeed (now v : Z) (s : Downloads) :
  speedsReports (map (fun e => (now, e)) (onSpeed v s)) = [].
Proof.
  unfold onSpeed.
  destruct (negb (v =? 0) || JS.neq_zero (storedSpeed s)); reflexivity.
Qed.

Lemma throttled_snoc (ts : list Z) (t : Z) :
  throttled ts -> Forall (fun t1 => t1 + 10000 <= t) ts ->
  throttled (ts ++ [t]).
Proof.
  unfold throttled. induction 1 as [|t0 ts Ht0 Hts IH]; intros Hall; simpl.
  - constructor; constructor.
  - inversion Hall as [|? ? Hfirst Hrest]; subst.
    constructor.
    + apply Forall_app. split; [exact Ht0|]. constructor; [exact Hfirst|].
      constructor.
    + apply IH, Hrest.
Qed.

Lemma schedule_timer (now : Z) (d : Debouncer.t) (due : Z) :
  Debouncer.timer (Debouncer.schedule now d) = Some due ->
  due = now + Debouncer.debounceMS d \/ Debouncer.timer d = Some due.
Proof.
  unfold Debouncer.schedule.
  destruct (Debouncer.timer d) eqn:Ht; simpl.
  - destruct (Debouncer.reset d); simpl.
    + intros [= <-]. left. reflexivity.
    + rewrite Ht. auto.
  - intros [= <-]. left. reflexivity.
Qed.

Lemma schedule_debounceMS (now : Z) (d : Debouncer.t) :
  Debouncer.debounceMS (Debouncer.schedule now d) = Debouncer.debounceMS d.
Proof.
  unfold Debouncer.schedule.
  destruct (Debouncer.timer d); [destruct (Debouncer.reset d)|]; reflexivity.
Qed.

(** One call of the callback keeps the reports throttled. *)
Lemma deliver_meterInv (wait : N) (v : Z) (m : Meter)
      (past : list (Z * effect)) :
  meterInv m past ->
  meterInv (fst (deliver wait v m)) (past ++ snd (deliver wait v m)).
Proof.
  intros (Hms & Hpast & Hthr & Hdue).
  unfold deliver. set (now := clock m + Z.of_N wait).
  assert (Hnow : clock m <= now) by (unfold now; lia).
  assert (Hexp :
            let r := expire now m in
            Debouncer.debounceMS (speedsDebouncer (fst r)) = 10000
            /\ Forall (fun t => t <= now) (speedsReports (past ++ snd r))
            /\ throttled (speedsReports (past ++ snd r))
            /\ (forall due,
                   Debouncer.timer (speedsDebouncer (fst r)) = Some due ->
                   Forall (fun t => t + 10000 <= due)
                          (speedsReports (past ++ snd r)))).
  { assert (Hold : Forall (fun t => t <= now) (speedsReports past))
      by (eapply Forall_impl; [|exact Hpast]; simpl; intros; lia).
    unfold expire.
    destruct (Debouncer.timer (speedsDebouncer m)) as [due|] eqn:Ht.
    - destruct (due <=? now) eqn:Hle; simpl.
      + apply Z.leb_le in Hle. rewrite speedsReports_app. simpl.
        split; [exact Hms|]. split.
        * apply Forall_app. split; [exact Hold|]. constructor; [lia|].
          constructor.
        * split; [apply throttled_snoc; auto|]. discriminate.
      + rewrite app_nil_r. rewrite Ht. auto.
    - simpl. rewrite app_nil_r, Ht. auto. }
  destruct (expire now m) as [m1 l1]. simpl in *.
  destruct Hexp as (Hms1 & Hpast1 & Hthr1 & Hdue1).
  unfold meterInv. simpl.
  rewrite app_assoc, speedsReports_app, speedsReports_onSpeed, app_nil_r.
  split; [|split; [exact Hpast1|split; [exact Hthr1|]]].
  - destruct (bool_decide _); [rewrite schedule_debounceMS|]; exact Hms1.
  - intros due. destruct (bool_decide _); [|apply Hdue1].
    intros Hs. apply schedule_timer in Hs as [->|Hs]; [|apply Hdue1, Hs].
    rewrite Hms1. eapply Forall_impl; [|exact Hpast1]. simpl. intros. lia.
Qed.

Lemma deliverAll_meterInv (calls : list (N * Z)) (m : Meter)
      (past : list (Z * effect)) :
  meterInv m past ->
  meterInv (fst (deliverAll calls m)) (past ++ snd (deliverAll calls m)).
Proof.
  revert m past. induction calls as [|[wait v] rest IH]; intros m past H;
    simpl.
  - rewrite app_nil_r. exact H.
  - rewrite app_assoc. apply IH, deliver_meterInv, H.
Qed.

(** C6. However many speed callbacks arrive and whenever they do, any
    two dispatches of [setDownloadSpeeds] are at least 10000
    milliseconds apart; they come from the debouncer only, the callback
    itself dispatches none. *)
Theorem speeds_reports_throttled (reset : bool) (s : Downloads)
        (calls : list (N * Z)) :
  throttled (speedsReports (snd (deliverAll calls (newMeter reset s))))
  /\ (forall speed s',
         dispatched (onSpeed speed s') = []
         \/ dispatched (onSpeed speed s') = [setDownloadSpeed speed]).
Proof.
  split.
  - assert (H0 : meterInv (newMeter reset s) []).
    { unfold meterInv, newMeter. simpl.
      split; [reflexivity|]. split; [constructor|].
      split; [constructor|]. discriminate. }
    apply (deliverAll_meterInv calls) in H0. simpl in H0.
    destruct H0 as (_ & _ & H & _). exact H.
  - intros speed s'. unfold onSpeed.
    destruct (negb (speed =? 0) || JS.neq_zero (storedSpeed s'));
      [right|left]; reflexivity.
Qed.

(** ** Removal of records *)

Lemma handler_removes (normalize : string -> string) (gameId : string)
      (env : HandlerEnv) (evt : string) (fileName : option string)
      (w : Watcher) (s : Downloads) (id : string) :
  In (Dispatch (removeDownload (Some id)))
     (snd (handler normalize gameId env evt fileName w s)) ->
  exists name, fileName = Some name /\ evt = "rename"
               /\ watchEnabled w = true
               /\ statOutcome env = Rejected "ENOENT"
               /\ nameIdMap w !! normalize name = Some id.
Proof.
  unfold downloadChangeHandler.
  destruct (watchEnabled w); simpl; [|intros []].
  destruct fileName as [name|]; simpl; [|intros []].
  destruct (negb (knownExt (Some name))); simpl; [intros []|].
  destruct (String.eqb evt "update").
  - destruct (updateTimers w !! name); simpl; [|intros []].
    destruct (statOutcome env); [|intros []].
    destruct (findDownload s name); simpl; [|intros []].
    intros [H|[]]. discriminate.
  - destruct (String.eqb evt "rename") eqn:Hevt; simpl; [|intros []].
    apply String.eqb_eq in Hevt.
    destruct (statOutcome env) as [stats|code].
    + destruct (findDownload s name); simpl; [intros []|].
      intros [H|[H|[]]]; discriminate.
    + simpl. destruct (String.eqb code "ENOENT") eqn:Hcode; [|intros []].
      apply String.eqb_eq in Hcode. subst code.
      destruct (nameIdMap w !! normalize name) as [i|] eqn:Hn; [|intros []].
      intros [[= ->]|[]]. exists name. auto 6.
Qed.

Lemma move_removes (env : ImportEnv) (gameMode : option string)
      (dlId source destination : string) (s : Downloads) (id : string) :
  In (Dispatch (removeDownload (Some id)))
     (move basename env gameMode dlId source destination s) ->
  In (Dispatch (removeDownload (Some id)))
     (replacedEffects basename env destination s)
  \/ (id = dlId /\ moveFailed env = true).
Proof.
  destruct (moveFailed env) eqn:Hfail.
  - destruct (move_failed_shape env gameMode dlId source destination s Hfail)
      as [-> | ->]; rewrite in_app_iff; simpl;
      intros [H|H]; auto; decompose [or] H; try discriminate;
      try contradiction;
      match goal with
      | E : Dispatch _ = Dispatch _ |- _ => injection E as ->
      end; auto.
  - revert Hfail.
    unfold moveFailed, move, replacedEffects, queryReplace, removeArchive.
    destruct (destinationStat env);
      [destruct (String.eqb (dialogAction env) "Cancel");
       [|destruct (removeOutcome env)]|];
      simpl; try discriminate;
      destruct (copyOutcome env); try destruct (copiedStat env);
      simpl; try discriminate; intros _ H.
    + destruct H as [H|H]; [discriminate|].
      apply in_app_iff in H as [H|H]; [left; right; exact H|].
      simpl in H. decompose [or] H; try discriminate; contradiction.
    + decompose [or] H; try discriminate; contradiction.
Qed.


(** ** Startup, record by record *)

Lemma reduce_speed (s : Downloads) (a : action) :
  (forall v, a <> setDownloadSpeed v) ->
  (forall vs, a <> setDownloadSpeeds vs) ->
  speed (Reducer.reduce s a) = speed s
  /\ speedHistory (Reducer.reduce s a) = speedHistory s.
Proof.
  destruct a as [i g f z|[i|]|i r|i r t cs us|v|vs]; simpl;
    intros Hv Hvs; try (split; reflexivity).
  - destruct (Hv v eq_refl).
  - destruct (Hvs vs eq_refl).
Qed.

Lemma reduceAll_speed (acts : list action) (s : Downloads) :
  (forall a, In a acts ->
             (forall v, a <> setDownloadSpeed v)
             /\ (forall vs, a <> setDownloadSpeeds vs)) ->
  speed (Reducer.reduceAll s acts) = speed s
  /\ speedHistory (Reducer.reduceAll s acts) = speedHistory s.
Proof.
  unfold Reducer.reduceAll. revert s.
  induction acts as [|a acts IH]; intros s Hall; simpl; [auto|].
  destruct (Hall a (or_introl eq_refl)) as [Hv Hvs].
  destruct (reduce_speed s a Hv Hvs) as [<- <-].
  apply IH. intros b Hb. apply Hall. right. exact Hb.
Qed.

Lemma startup_speed (removed : string -> bool)
      (downloadPath : option string) (s : Downloads) :
  speed (startup join removed downloadPath s) = speed s
  /\ speedHistory (startup join removed downloadPath s) = speedHistory s.
Proof.
  unfold startup, applyEffects. apply reduceAll_speed.
  intros a Ha.
  apply dispatched_In, recoverDownloads_In in Ha as (i & d & _ & Ha).
  apply recordEffects_dispatch in Ha.
  destruct Ha as [(-> & _)|[(-> & _)|(-> & _)]]; split; discriminate.
Qed.

(** The records after startup, one by one. *)
Lemma startup_lookup (removed : string -> bool)
      (downloadPath : option string) (s : Downloads) (id : string) :
  files (startup join removed downloadPath s) !! id
  = files s !! id ≫= recovered join removed downloadPath.
Proof.
  unfold startup, applyEffects.
  destruct (files s !! id) as [d|] eqn:Hd; simpl;
    [|apply reduceAll_absent; [apply recoverDownloads_no_add | exact Hd]].
  assert (Hown : forall a,
             In a (dispatched (recover removed downloadPath (files s))) ->
             touches id a = true ->
             In (Dispatch a) (perRecord removed downloadPath id d)).
  { intros a Ha Ht.
    apply dispatched_In, recoverDownloads_In in Ha as (i & d' & Hd' & Ha).
    pose proof (recordEffects_touches _ _ _ _ _ _ Ha Ht) as ->.
    rewrite Hd in Hd'. injection Hd' as <-. exact Ha. }
  assert (Hin : forall a,
             In (Dispatch a) (perRecord removed downloadPath id d) ->
             In a (dispatched (recover removed downloadPath (files s)))).
  { intros a Ha. apply dispatched_In, recoverDownloads_In. eauto. }
  unfold recovered, removable.
  unfold recordEffects, recoverSync, recoverThen, dropNoLocalPath in Hown, Hin.
  destruct (truthy (localPath d)) eqn:Hlp; simpl in *.
  - destruct (isInterrupted d) eqn:Hint; simpl in *.
    + destruct (truthy (urls d)) eqn:Hu; simpl in *.
      * rewrite (reduceAll_interrupted _ _ id (realSize d)).
        -- rewrite Hd.
           replace (existsb _ _) with true; [reflexivity|].
           symmetry. apply existsb_exists.
           exists (setDownloadInterrupted id (realSize d)).
           split; [apply Hin; left; reflexivity|].
           simpl. apply bool_decide_eq_true_2. reflexivity.
        -- intros a Ha Ht. destruct (Hown a Ha Ht) as [[= <-]|[]].
           reflexivity.
      * destruct downloadPath as [dp|]; [destruct (localPath d) as [lp|]|].
        -- destruct (removed (join dp lp)).
           ++ apply reduceAll_removed; [apply recoverDownloads_no_add|].
              apply Hin. simpl. right. left. reflexivity.
           ++ rewrite reduceAll_untouched; [exact Hd|].
              apply not_true_is_false. intros H.
              apply existsb_exists in H as (a & Ha & Ht).
              destruct (Hown a Ha Ht) as [H|[]]. discriminate.
        -- apply reduceAll_removed; [apply recoverDownloads_no_add|].
           apply Hin. left. reflexivity.
        -- apply reduceAll_removed; [apply recoverDownloads_no_add|].
           apply Hin. left. reflexivity.
    + rewrite reduceAll_untouched; [exact Hd|].
      apply not_true_is_false. intros H.
      apply existsb_exists in H as (a & Ha & Ht).
      destruct (Hown a Ha Ht).
  - apply reduceAll_removed; [apply recoverDownloads_no_add|].
    apply Hin. rewrite !in_app_iff. right. left. reflexivity.
Qed.

Lemma Downloads_eq (a b : Downloads) :
  files a = files b -> speed a = speed b ->
  speedHistory a = speedHistory b -> a = b.
Proof.
  destruct a, b; simpl. intros -> -> ->. reflexivity.
Qed.

Lemma recovered_cases (removed : string -> bool)
      (downloadPath : option string) (d d' : IDownload) :
  recovered join removed downloadPath d = Some d' ->
  truthy (localPath d) = true
  /\ ((d' = d /\ isInterrupted d = false)
      \/ (d' = d /\ isInterrupted d = true /\ urls d = None
          /\ removable join removed downloadPath d = false)
      \/ (d' = Reducer.interrupt (realSize d) d /\ isInterrupted d = true
          /\ is_Some (urls d))).
Proof.
  unfold recovered.
  destruct (truthy (localPath d)); simpl; [|discriminate].
  destruct (isInterrupted d);
    [|intros [= <-]; split; [reflexivity|]; left; split; reflexivity].
  destruct (truthy (urls d)) eqn:Hu.
  - intros [= <-]. split; [reflexivity|]. right. right.
    destruct (urls d); [eauto | discriminate].
  - apply truthy_urls_false in Hu.
    destruct (removable join removed downloadPath d); [discriminate|].
    intros [= <-]. split; [reflexivity|]. right. left.
    repeat split; auto.
Qed.

(** X1. After startup no record is left without a localPath: whatever
    was in the store, every record that remains has a non-empty one. *)
Theorem startup_leaves_localPath (removed : string -> bool)
        (downloadPath : option string) (s : Downloads)
        (id : string) (d' : IDownload) :
  files (startup join removed downloadPath s) !! id = Some d' ->
  exists lp, localPath d' = Some lp /\ lp <> "".
Proof.
  rewrite startup_lookup. destruct (files s !! id) as [d|]; [|discriminate].
  simpl. intros H. apply recovered_cases in H as [Hlp H].
  assert (Hsame : localPath d' = localPath d)
    by (destruct H as [(-> & _)|[(-> & _)|(-> & _)]]; reflexivity).
  rewrite Hsame. destruct (localPath d) as [lp|]; [|discriminate].
  exists lp. split; [reflexivity|]. apply truthy_string_true, Hlp.
Qed.

(** X2. Startup creates no record and rewrites none: a record that is
    in the store afterwards was there before under the same id, and it
    is either unchanged or that record interrupted with its byte count;
    the speed and the speed history are untouched. *)
Theorem startup_creates_nothing (removed : string -> bool)
        (downloadPath : option string) (s : Downloads) :
  (forall id d',
      files (startup join removed downloadPath s) !! id = Some d' ->
      exists d, files s !! id = Some d
                /\ (d' = d \/ d' = Reducer.interrupt (realSize d) d))
  /\ speed (startup join removed downloadPath s) = speed s
  /\ speedHistory (startup join removed downloadPath s) = speedHistory s.
Proof.
  split; [|apply startup_speed].
  intros id d'. rewrite startup_lookup.
  destruct (files s !! id) as [d|]; [|discriminate].
  simpl. intros H. apply recovered_cases in H as [_ H].
  exists d. split; [reflexivity|].
  destruct H as [(-> & _)|[(-> & _)|(-> & _)]]; auto.
Qed.

(** X3. Startup leaves alone every record that is not in state [init],
    [started] or [pending] and has a non-empty localPath: a finished,
    failed or paused download is after startup what it was before. *)
Theorem startup_keeps_settled (removed : string -> bool)
        (downloadPath : option string) (s : Downloads)
        (id : string) (d : IDownload) :
  files s !! id = Some d ->
  state d ∉ interruptedStates ->
  truthy (localPath d) = true ->
  files (startup join removed downloadPath s) !! id = Some d.
Proof.
  intros Hd Hst Hlp. rewrite startup_lookup, Hd. simpl.
  unfold recovered. rewrite Hlp. simpl.
  replace (isInterrupted d) with false; [reflexivity|].
  symmetry. apply not_true_is_false. intros H.
  apply isInterrupted_true in H. contradiction.
Qed.

(** X4. Startup is idempotent: running the recovery again on the store
    it produced, in the same environment, changes nothing. *)
Theorem startup_idempotent (removed : string -> bool)
        (downloadPath : option string) (s : Downloads) :
  startup join removed downloadPath (startup join removed downloadPath s)
  = startup join removed downloadPath s.
Proof.
  destruct (startup_speed removed downloadPath
              (startup join removed downloadPath s)) as [Hsp Hh].
  apply Downloads_eq; [|exact Hsp|exact Hh].
  apply map_eq. intros id. rewrite startup_lookup.
  destruct (files (startup join removed downloadPath s) !! id) as [d'|]
    eqn:Hd'; [|reflexivity].
  simpl. rewrite startup_lookup in Hd'.
  destruct (files s !! id) as [d|]; [|discriminate].
  simpl in Hd'. pose proof (recovered_cases _ _ _ _ Hd') as [Hlp H].
  destruct H as [(-> & _)|[(-> & _)|(-> & _ & _)]]; try exact Hd'.
  unfold recovered. simpl. rewrite Hlp. reflexivity.
Qed.

(** X5. If every file removal succeeds, startup leaves no record in a
    state it recovers: afterwards no download is in state [init],
    [started] or [pending]. *)
Theorem startup_leaves_none_interrupted (removed : string -> bool)
        (downloadPath : option string) (s : Downloads)
        (id : string) (d' : IDownload) :
  (forall p, removed p = true) ->
  files (startup join removed downloadPath s) !! id = Some d' ->
  state d' ∉ interruptedStates.
Proof.
  intros Hok. rewrite startup_lookup.
  destruct (files s !! id) as [d|]; [|discriminate].
  simpl. intros H. apply recovered_cases in H as [_ H].
  destruct H as [(-> & Hno)|[(-> & _ & _ & Hrm)|(-> & _)]].
  - intros Hin. apply isInterrupted_true in Hin. congruence.
  - unfold removable in Hrm.
    destruct downloadPath; [destruct (localPath d)|]; try discriminate.
    rewrite Hok in Hrm. discriminate.
  - simpl. intros Hin.
    apply (bool_decide_eq_true_2 _) in Hin. discriminate.
Qed.

Lemma sum_nonneg (zs : list Z) :
  Forall (fun z => 0 <= z) zs -> 0 <= fold_right Z.add 0 zs.
Proof. induction 1; simpl; lia. Qed.

(** X6. With consistent bookkeeping the byte count of an interrupted
    download lies between 0 and the size: if every chunk has a
    non-negative size and the sizes add up to no more than the size of
    the download, [realSize] is a number in that range. *)
Theorem realSize_in_range (d : IDownload) (total : Z) (sizes : list Z) :
  size d = Some total ->
  map chunk_size (default [] (chunks d)) = map Some sizes ->
  Forall (fun z => 0 <= z) sizes ->
  fold_right Z.add 0 sizes <= total ->
  exists r, realSize d = JS.Num r /\ 0 <= r <= total.
Proof.
  intros Hs Hcs Hpos Hle. pose proof (sum_nonneg sizes Hpos) as Hsum.
  unfold realSize. rewrite Hs.
  destruct (Z.eq_dec total 0) as [->|Hne].
  - exists 0. split; [reflexivity | lia].
  - replace (JS.neq_zero (Some total)) with true
      by (destruct total; [congruence|reflexivity|reflexivity]).
    replace (map (fun chunk => JS.toNumber (chunk_size chunk))
                 (default [] (chunks d)))
      with (map JS.Num sizes)
      by (rewrite <- (map_map chunk_size JS.toNumber), Hcs, map_map;
          reflexivity).
    unfold sum. rewrite sum_of_numbers. simpl.
    exists (total - (0 + fold_right Z.add 0 sizes)). split; [reflexivity|lia].
Qed.

(** ** The watcher, event by event *)

Lemma findDownload_Some (s : Downloads) (name id : string) :
  findDownload s name = Some id ->
  exists d, files s !! id = Some d /\ localPath d = Some name.
Proof.
  unfold findDownload.
  destruct (List.find _ (map_to_list (files s))) as [[i d]|] eqn:Hf;
    [|discriminate].
  intros [= <-]. apply find_some in Hf as [Hin Hlp]. simpl in *.
  apply list_elem_of_In, elem_of_map_to_list in Hin.
  apply bool_decide_eq_true in Hlp. eauto.
Qed.

Lemma findDownload_None (s : Downloads) (name id : string) (d : IDownload) :
  findDownload s name = None ->
  files s !! id = Some d -> localPath d <> Some name.
Proof.
  unfold findDownload.
  destruct (List.find _ (map_to_list (files s))) as [[i d']|] eqn:Hf;
    [discriminate|].
  intros _ Hd Hlp.
  apply elem_of_map_to_list, list_elem_of_In in Hd.
  pose proof (find_none _ _ Hf _ Hd) as Hno. simpl in Hno.
  apply bool_decide_eq_false in Hno. contradiction.
Qed.

(** X7. [findDownload] is a correct lookup by file name: an id it
    returns is the id of a record with exactly that localPath, and it
    returns [undefined] exactly when the store has no such record. *)
Theorem findDownload_correct (s : Downloads) (name : string) :
  (forall id, findDownload s name = Some id ->
              exists d, files s !! id = Some d /\ localPath d = Some name)
  /\ (findDownload s name = None <->
      forall id d, files s !! id = Some d -> localPath d <> Some name).
Proof.
  split; [intros id; apply findDownload_Some|].
  split.
  - intros Hnone id d. apply findDownload_None, Hnone.
  - intros Hall. destruct (findDownload s name) as [id|] eqn:Hf;
      [|reflexivity].
    apply findDownload_Some in Hf as (d & Hd & Hlp).
    destruct (Hall id d Hd Hlp).
Qed.

(** The effects of one call of the handler are of one of four shapes. *)
Lemma handler_effects (normalize : string -> string) (gameId : string)
      (env : HandlerEnv) (evt : string) (fileName : option string)
      (w : Watcher) (s : Downloads) :
  let es := snd (handler normalize gameId env evt fileName w s) in
  es = []
  \/ (exists id rcvd, es = [Dispatch (downloadProgress id rcvd rcvd [] None)])
  \/ (exists name fileSize,
        fileName = Some name /\ findDownload s name = None
        /\ es = [Dispatch (addLocalDownload (freshId env) (Some gameId) name
                             fileSize);
                 Emit "did-import-downloads" [freshId env]])
  \/ (exists id, es = [Dispatch (removeDownload (Some id))]).
Proof.
  unfold downloadChangeHandler.
  destruct (negb (watchEnabled w) || bool_decide (fileName = None)
            || negb (knownExt fileName)); simpl; [auto|].
  destruct fileName as [name|]; simpl; [|auto].
  destruct (String.eqb evt "update").
  - destruct (updateTimers w !! name); simpl; [|auto].
    destruct (statOutcome env); [|auto].
    destruct (findDownload s name); simpl; [|auto].
    right. left. eauto.
  - destruct (String.eqb evt "rename"); simpl; [|auto].
    destruct (statOutcome env) as [stats|code].
    + destruct (findDownload s name) eqn:Hf; simpl; [auto|].
      right. right. left. eauto.
    + simpl. destruct (String.eqb code "ENOENT"); [|auto].
      destruct (nameIdMap w !! normalize name); [|auto].
      right. right. right. eauto.
Qed.

Lemma uniquePaths_delete (fs : gmap string IDownload) (id : string) :
  uniquePaths fs -> uniquePaths (delete id fs).
Proof.
  intros Hu id1 id2 d1 d2 lp H1 H2.
  apply lookup_delete_Some in H1 as [_ H1].
  apply lookup_delete_Some in H2 as [_ H2].
  exact (Hu id1 id2 d1 d2 lp H1 H2).
Qed.

Lemma uniquePaths_alter (fs : gmap string IDownload) (id : string)
      (f : IDownload -> IDownload) :
  (forall d, localPath (f d) = localPath d) ->
  uniquePaths fs -> uniquePaths (alter f id fs).
Proof.
  intros Hf Hu id1 id2 d1 d2 lp H1 H2 L1 L2.
  assert (Hold : forall i d, alter f id fs !! i = Some d ->
                             exists d0, fs !! i = Some d0
                                        /\ localPath d0 = localPath d).
  { intros i d. rewrite lookup_alter. case_decide as Hi.
    - subst i. destruct (fs !! id) as [d0|]; [|discriminate].
      intros [= <-]. exists d0. rewrite Hf. auto.
    - intros H. exists d. auto. }
  apply Hold in H1 as (a & H1 & La). apply Hold in H2 as (b & H2 & Lb).
  apply (Hu id1 id2 a b lp); congruence.
Qed.

Lemma uniquePaths_insert (fs : gmap string IDownload) (id : string)
      (d : IDownload) :
  (forall i d0, fs !! i = Some d0 -> localPath d0 <> localPath d) ->
  uniquePaths fs -> uniquePaths (<[id := d]> fs).
Proof.
  intros Hnew Hu id1 id2 d1 d2 lp H1 H2 L1 L2.
  apply lookup_insert_Some in H1 as [[<- <-]|[N1 H1]];
    apply lookup_insert_Some in H2 as [[<- <-]|[N2 H2]].
  - reflexivity.
  - destruct (Hnew id2 d2 H2). congruence.
  - destruct (Hnew id1 d1 H1). congruence.
  - exact (Hu id1 id2 d1 d2 lp H1 H2 L1 L2).
Qed.

Lemma watchStep_uniquePaths (normalize : string -> string) (gameId : string)
      (i : watchInput) (ws : Watcher * Downloads) :
  uniquePaths (files (snd ws)) ->
  uniquePaths
    (files (snd (fst (watchStep extname toLowerCase normalize gameId i ws)))).
Proof.
  intros Hu. destruct i as [env evt fileName|enabled]; simpl; [|exact Hu].
  destruct (handler_effects normalize gameId env evt fileName
              (fst ws) (snd ws))
    as [->|[(id & r & ->)|[(name & z & -> & Hnone & ->)|(id & ->)]]];
    simpl.
  - exact Hu.
  - apply uniquePaths_alter; [reflexivity | exact Hu].
  - apply uniquePaths_insert; [|exact Hu].
    intros i d0 Hd0. simpl. eapply findDownload_None; eauto.
  - apply uniquePaths_delete, Hu.
Qed.

(** X8. The watcher never creates a duplicate: if no two records of the
    store carry the same localPath, that is still so after any sequence
    of file-system events and switches of the watch. *)
Theorem watcher_keeps_paths_unique (normalize : string -> string)
        (gameId : string) (inputs : list watchInput)
        (ws : Watcher * Downloads) :
  uniquePaths (files (snd ws)) ->
  uniquePaths
    (files (snd (fst (watchRun extname toLowerCase normalize gameId
                        inputs ws)))).
Proof.
  revert ws. induction inputs as [|i rest IH]; intros ws Hu; simpl;
    [exact Hu|].
  apply IH, watchStep_uniquePaths, Hu.
Qed.


Lemma handler_appear (normalize : string -> string)
      (gameId name newId : string) (stats : Stats)
      (w : Watcher) (s : Downloads) :
  watchEnabled w = true ->
  knownExt (Some name) = true ->
  findDownload s name = None ->
  handler normalize gameId
    {| statOutcome := Resolved stats; freshId := newId |}
    "rename" (Some name) w s
  = (setNameId (normalize name) newId w,
     [Dispatch (addLocalDownload newId (Some gameId) name (stat_size stats));
      Emit "did-import-downloads" [newId]]).
Proof.
  intros Hon Hk Hnone. unfold downloadChangeHandler.
  rewrite Hon, Hk, Hnone, bool_decide_eq_false_2 by discriminate.
  reflexivity.
Qed.

Lemma handler_vanish (normalize : string -> string)
      (gameId name id other : string) (w : Watcher) (s : Downloads) :
  watchEnabled w = true ->
  knownExt (Some name) = true ->
  nameIdMap w !! normalize name = Some id ->
  handler normalize gameId
    {| statOutcome := Rejected "ENOENT"; freshId := other |}
    "rename" (Some name) w s
  = (w, [Dispatch (removeDownload (Some id))]).
Proof.
  intros Hon Hk Hmap. unfold downloadChangeHandler.
  rewrite Hon, Hk, Hmap, bool_decide_eq_false_2 by discriminate.
  reflexivity.
Qed.

(** X10. A file that appears and disappears leaves no trace in the
    store: when the watcher sees an untracked archive appear (it adds a
    record under a fresh id) and then sees the same file gone, the
    record it added is removed again and the store is what it was. *)
Theorem created_then_deleted (normalize : string -> string)
        (gameId name newId other : string) (stats : Stats)
        (w : Watcher) (s : Downloads) :
  watchEnabled w = true ->
  knownExt (Some name) = true ->
  findDownload s name = None ->
  files s !! newId = None ->
  let appear := FsEvent {| statOutcome := Resolved stats; freshId := newId |}
                        "rename" (Some name) in
  let vanish := FsEvent {| statOutcome := Rejected "ENOENT";
                           freshId := other |}
                        "rename" (Some name) in
  let r := watchRun extname toLowerCase normalize gameId [appear; vanish]
             (w, s) in
  snd r = [Dispatch (addLocalDownload newId (Some gameId) name
                       (stat_size stats));
           Emit "did-import-downloads" [newId];
           Dispatch (removeDownload (Some newId))]
  /\ snd (fst r) = s.
Proof.
  intros Hon Hk Hnone Hfresh appear vanish r.
  unfold r, appear, vanish.
  cbn [watchRun watchStep fst snd].
  rewrite (handler_appear normalize gameId name newId stats w s Hon Hk Hnone).
  cbn [fst snd].
  rewrite (handler_vanish normalize gameId name newId other
             (setNameId (normalize name) newId w) _ Hon Hk)
    by (simpl; apply lookup_insert_eq).
  split; [reflexivity|].
  apply Downloads_eq; simpl; try reflexivity.
  apply delete_insert_id, Hfresh.
Qed.

(** ** The refresh of the download directory *)

Lemma filter_nil {A : Type} (f : A -> bool) (l : list A) :
  (forall x, In x l -> f x = false) -> List.filter f l = [].
Proof.
  induction l as [|x l IH]; intros H; simpl; [reflexivity|].
  rewrite (H x (or_introl eq_refl)). apply IH.
  intros y Hy. apply H. right. exact Hy.
Qed.

Lemma flat_map_nil {A B : Type} (f : A -> list B) (l : list A) :
  (forall x, In x l -> f x = []) -> flat_map f l = [].
Proof.
  induction l as [|x l IH]; intros H; simpl; [reflexivity|].
  rewrite (H x (or_introl eq_refl)). apply IH.
  intros y Hy. apply H. right. exact Hy.
Qed.

Lemma scanned_filter (env : RefreshEnv) (downloadPath : string)
      (entries : list string) (n : string) :
  In n (List.filter
          (fun filePath =>
             match scanStat env (join downloadPath filePath) with
             | Resolved stat => negb (isDirectory stat)
             | Rejected _ => false
             end)
          (List.filter (fun filePath => knownExt (Some filePath)) entries))
  <-> scan env downloadPath entries n.
Proof.
  unfold scanned. rewrite !filter_In. split.
  - intros [[Hn Hk] Hs].
    destruct (scanStat env (join downloadPath n)) as [stat|];
      [|discriminate].
    apply negb_true_iff in Hs. eauto.
  - intros (Hn & Hk & stat & Hs & Hd). rewrite Hs, Hd. auto.
Qed.

Lemma promiseMap_rejected {S : Type}
      (f : string -> S -> fsResult (S * list effect))
      (names : list string) (st : S) (n code : string) :
  In n names -> (forall st1, f n st1 = Rejected code) ->
  exists c, snd (promiseMap f names st) = Some c.
Proof.
  intros Hn Hf. revert st.
  induction names as [|m rest IH]; intros st; [destruct Hn|].
  simpl. destruct (f m st) as [[st1 es1]|c] eqn:Hm; simpl; [|eauto].
  destruct Hn as [->|Hn]; [rewrite Hf in Hm; discriminate|].
  apply IH, Hn.
Qed.

Lemma dropped_effects (s : Downloads) (e : effect) :
  In e (flat_map (fun kv => dropFinishedNoLocalPath (fst kv) (snd kv))
                 (map_to_list (files s))) ->
  exists id d, files s !! id = Some d
               /\ e = Dispatch (removeDownload (Some id))
               /\ state d = "finished" /\ truthy (localPath d) = false.
Proof.
  intros H. apply in_flat_map in H as ([id d] & Hin & He).
  apply list_elem_of_In, elem_of_map_to_list in Hin.
  apply dropFinishedNoLocalPath_effects in He as (He & Hst & Hlp).
  exists id, d. simpl in *. auto.
Qed.

Lemma refreshDownloads_rejected {S : Type} (env : RefreshEnv)
      (downloadPath : string) (known : list string)
      (normalize : string -> string)
      (onAdd onRemove : string -> S -> fsResult (S * list effect))
      (st : S) :
  (exists c, dirWritable env = Rejected c)
  \/ (exists c, readdir env = Rejected c) ->
  fst (refreshDownloads extname toLowerCase join env downloadPath known
         normalize onAdd onRemove st) = (st, []).
Proof.
  unfold refreshDownloads. intros [[c Hc]|[c Hc]].
  - rewrite Hc. reflexivity.
  - rewrite Hc. destruct (dirWritable env); reflexivity.
Qed.

Lemma refreshDownloads_in_sync {S : Type} (env : RefreshEnv)
      (downloadPath : string) (known : list string)
      (normalize : string -> string)
      (onAdd onRemove : string -> S -> fsResult (S * list effect))
      (st : S) :
  (forall entries, readdir env = Resolved entries ->
     (forall m, scan env downloadPath entries m -> In (normalize m) known)
     /\ (forall n, In n known ->
                   exists m, scan env downloadPath entries m
                             /\ normalize m = n)) ->
  fst (refreshDownloads extname toLowerCase join env downloadPath known
         normalize onAdd onRemove st) = (st, []).
Proof.
  intros Hsync. unfold refreshDownloads.
  destruct (dirWritable env); [|reflexivity].
  destruct (readdir env) as [entries|]; [|reflexivity].
  destruct (Hsync entries eq_refl) as [Hall Hback].
  set (names := List.filter _ (List.filter _ entries)).
  assert (Hadd : List.filter
                   (fun name => negb (bool_decide (normalize name ∈ known)))
                   names = []).
  { apply filter_nil. intros m Hm. apply scanned_filter in Hm.
    apply negb_false_iff, bool_decide_eq_true, list_elem_of_In, Hall, Hm. }
  assert (Hrem : List.filter
                   (fun name =>
                      negb (bool_decide (name ∈ map normalize names)))
                   known = []).
  { apply filter_nil. intros n Hn.
    destruct (Hback n Hn) as (m & Hm & <-).
    apply negb_false_iff, bool_decide_eq_true, list_elem_of_In, in_map.
    apply scanned_filter, Hm. }
  rewrite Hadd. simpl. rewrite Hrem. reflexivity.
Qed.

(** X11. A refresh that finds the directory in step with the store
    dispatches nothing: if no finished record lacks a localPath, every
    archive the scan keeps has a known name, and every known name is the
    name of such an archive, then [updateDownloadPath] only announces
    the refresh, and the name map it hands to the watcher is the one of
    the store. *)
Theorem refresh_in_sync_dispatches_nothing (env : RefreshEnv)
        (activeGameId : option string)
        (downloadPathForGame : string -> string)
        (getNormalizeFunc : string -> fsResult (string -> string))
        (gameId : option string) (s : Downloads)
        (g : string) (normalize : string -> string) :
  match gameId with Some g => Some g | None => activeGameId end = Some g ->
  getNormalizeFunc (downloadPathForGame g) = Resolved normalize ->
  (forall id d, files s !! id = Some d -> state d = "finished" ->
                truthy (localPath d) = true) ->
  (forall entries, readdir env = Resolved entries ->
     (forall m, scan env (downloadPathForGame g) entries m ->
                In (normalize m)
                   (knownDLs getDownloadGames normalize g (files s)))
     /\ (forall n, In n (knownDLs getDownloadGames normalize g (files s)) ->
                   exists m, scan env (downloadPathForGame g) entries m
                             /\ normalize m = n)) ->
  update env activeGameId downloadPathForGame getNormalizeFunc gameId s
  = ([Emit "downloads-refreshed" []],
     Some (buildNameIdMap normalize (files s))).
Proof using extname toLowerCase join getDownloadGames.
  intros Hg Hn Hfin Hsync. unfold updateDownloadPath.
  rewrite Hg, Hn. rewrite refreshDownloads_in_sync by exact Hsync.
  rewrite flat_map_nil; [reflexivity|].
  intros [id d] Hin. simpl.
  apply list_elem_of_In, elem_of_map_to_list in Hin.
  unfold dropFinishedNoLocalPath.
  destruct (String.eqb (state d) "finished") eqn:Hst; [|reflexivity].
  apply String.eqb_eq in Hst. rewrite (Hfin id d Hin Hst). reflexivity.
Qed.

(** X12. A directory that cannot be made writable or cannot be read
    costs no record: [updateDownloadPath] then adds nothing, and the
    only records it removes are the finished ones without a localPath
    of its first loop. *)
Theorem unreadable_directory_removes_nothing (env : RefreshEnv)
        (activeGameId : option string)
        (downloadPathForGame : string -> string)
        (getNormalizeFunc : string -> fsResult (string -> string))
        (gameId : option string) (s : Downloads) (a : action) :
  (exists c, dirWritable env = Rejected c)
  \/ (exists c, readdir env = Rejected c) ->
  In (Dispatch a)
     (fst (update env activeGameId downloadPathForGame getNormalizeFunc
             gameId s)) ->
  exists id d, a = removeDownload (Some id) /\ files s !! id = Some d
               /\ state d = "finished" /\ truthy (localPath d) = false.
Proof using extname toLowerCase join getDownloadGames.
  intros Hrej. unfold updateDownloadPath.
  assert (Hdrop : In (Dispatch a)
                     (flat_map
                        (fun kv => dropFinishedNoLocalPath (fst kv) (snd kv))
                        (map_to_list (files s))) ->
                  exists id d, a = removeDownload (Some id)
                    /\ files s !! id = Some d
                    /\ state d = "finished"
                    /\ truthy (localPath d) = false).
  { intros H. apply dropped_effects in H as (id & d & Hd & [= ->] & H).
    exists id, d. auto. }
  destruct (match gameId with Some g => Some g | None => activeGameId end)
    as [g|]; simpl; [|exact Hdrop].
  destruct (getNormalizeFunc (downloadPathForGame g)) as [normalize|];
    simpl; [|exact Hdrop].
  rewrite refreshDownloads_rejected by exact Hrej. simpl.
  rewrite in_app_iff. intros [H|[H|[]]]; [auto | discriminate].
Qed.

Lemma refreshDownloads_add_rejected {S : Type} (env : RefreshEnv)
      (downloadPath : string) (known : list string)
      (normalize : string -> string)
      (onAdd onRemove : string -> S -> fsResult (S * list effect))
      (st : S) (entries : list string) (n code : string) (e : effect) :
  readdir env = Resolved entries ->
  scan env downloadPath entries n ->
  ~ In (normalize n) known ->
  (forall st1, onAdd n st1 = Rejected code) ->
  In e (snd (fst (refreshDownloads extname toLowerCase join env downloadPath
                    known normalize onAdd onRemove st))) ->
  exists m st1 st2 es, onAdd m st1 = Resolved (st2, es) /\ In e es.
Proof.
  intros Hdir Hscan Hnew Hrej. unfold refreshDownloads.
  destruct (dirWritable env); [|intros []].
  rewrite Hdir.
  set (names := List.filter _ (List.filter _ entries)).
  set (addedDLs := List.filter _ names).
  destruct (promiseMap_rejected onAdd addedDLs st n code) as [c Hc].
  { unfold addedDLs. apply filter_In. split.
    - apply scanned_filter, Hscan.
    - apply negb_true_iff, bool_decide_eq_false.
      rewrite list_elem_of_In. exact Hnew. }
  { exact Hrej. }
  rewrite Hc. intros He.
  destruct (promiseMap_inv (fun _ => True) onAdd addedDLs st I
              (fun _ _ _ _ _ _ _ => I)) as [_ Heff].
  destruct (Heff e He) as (m & st1 & st2 & es & _ & _ & Hf & Hes).
  exists m, st1, st2, es. split; assumption.
Qed.

(** X13. If the stat of a file that the refresh is about to add fails,
    the refresh removes no record for a missing file: the removals come
    after the additions and are skipped, so the only records
    [updateDownloadPath] removes are the finished ones without a
    localPath of its first loop. *)
Theorem failed_add_skips_removals (env : RefreshEnv)
        (activeGameId : option string)
        (downloadPathForGame : string -> string)
        (getNormalizeFunc : string -> fsResult (string -> string))
        (gameId : option string) (s : Downloads)
        (g : string) (normalize : string -> string)
        (entries : list string) (n code : string) (od : option string) :
  match gameId with Some g => Some g | None => activeGameId end = Some g ->
  getNormalizeFunc (downloadPathForGame g) = Resolved normalize ->
  readdir env = Resolved entries ->
  scan env (downloadPathForGame g) entries n ->
  ~ In (normalize n) (knownDLs getDownloadGames normalize g (files s)) ->
  addStat env (join (downloadPathForGame g) n) = Rejected code ->
  In (Dispatch (removeDownload od))
     (fst (update env activeGameId downloadPathForGame getNormalizeFunc
             gameId s)) ->
  exists id d, od = Some id /\ files s !! id = Some d
               /\ state d = "finished" /\ truthy (localPath d) = false.
Proof using extname toLowerCase join getDownloadGames.
  intros Hg Hn Hdir Hscan Hnew Hstat. unfold updateDownloadPath.
  rewrite Hg, Hn. cbn [fst snd]. rewrite !in_app_iff.
  intros [H|[H|[H|[]]]]; [| |discriminate].
  - apply dropped_effects in H as (id & d & Hd & [= ->] & H).
    exists id, d. auto.
  - eapply refreshDownloads_add_rejected in H; eauto.
    + destruct H as (m & st1 & st2 & es & Hf & Hes).
      destruct (addStat env (join (downloadPathForGame g) m));
        [|discriminate].
      injection Hf as <- <-. destruct Hes as [Hes|[]]. discriminate.
    + intros st1. cbv beta. rewrite Hstat. reflexivity.
Qed.

Lemma buildNameIdMap_snoc (normalize : string -> string)
      (l : list (string * IDownload)) (acc : gmap string string)
      (id : string) (d : IDownload) (lp : string) :
  In (id, d) l -> localPath d = Some lp ->
  exists id' d' lp',
    fold_left
      (fun prev kv =>
         match localPath (snd kv) with
         | Some p => <[normalize p := fst kv]> prev
         | None => prev
         end) l acc !! normalize lp = Some id'
    /\ In (id', d') l /\ localPath d' = Some lp'
    /\ normalize lp' = normalize lp.
Proof.
  revert acc. induction l as [|[i x] l IH] using rev_ind;
    intros acc Hin Hlp; [destruct Hin|].
  rewrite fold_left_app. simpl.
  assert (Hkeep : In (id, d) l ->
            exists id' d' lp',
              fold_left
                (fun prev kv =>
                   match localPath (snd kv) with
                   | Some p => <[normalize p := fst kv]> prev
                   | None => prev
                   end) l acc !! normalize lp = Some id'
              /\ In (id', d') (l ++ [(i, x)]) /\ localPath d' = Some lp'
              /\ normalize lp' = normalize lp).
  { intros H. destruct (IH acc H Hlp) as (id' & d' & lp' & Hl & Hin' & H').
    exists id', d', lp'. split; [exact Hl|]. split; [|exact H'].
    apply in_app_iff. left. exact Hin'. }
  destruct (localPath x) as [p|] eqn:Hx.
  - destruct (decide (normalize p = normalize lp)) as [Heq|Hne].
    + exists i, x, p. rewrite Heq, lookup_insert_eq.
      repeat split; auto. apply in_app_iff. right. left. reflexivity.
    + rewrite lookup_insert_ne by exact Hne.
      apply Hkeep. apply in_app_iff in Hin as [Hin|[[= <- <-]|[]]];
        [exact Hin|]. congruence.
  - apply Hkeep. apply in_app_iff in Hin as [Hin|[[= <- <-]|[]]];
      [exact Hin|]. congruence.
Qed.

(** X14. The name map [updateDownloadPath] builds is sound and complete
    for the store: a name of the map is the normalized localPath of the
    record it is mapped to, and the normalized localPath of every record
    is a name of the map, mapped to a record of that normalized name
    (to that very record, if no other record shares the name). *)
Theorem nameIdMap_sound_and_complete (normalize : string -> string)
        (downloads : gmap string IDownload) :
  (forall name id,
      buildNameIdMap normalize downloads !! name = Some id ->
      exists d lp, downloads !! id = Some d /\ localPath d = Some lp
                   /\ normalize lp = name)
  /\ (forall id d lp,
         downloads !! id = Some d -> localPath d = Some lp ->
         exists id' d' lp',
           buildNameIdMap normalize downloads !! normalize lp = Some id'
           /\ downloads !! id' = Some d' /\ localPath d' = Some lp'
           /\ normalize lp' = normalize lp)
  /\ (forall id d lp,
         downloads !! id = Some d -> localPath d = Some lp ->
         (forall id2 d2 lp2,
             downloads !! id2 = Some d2 -> localPath d2 = Some lp2 ->
             normalize lp2 = normalize lp -> id2 = id) ->
         buildNameIdMap normalize downloads !! normalize lp = Some id).
Proof.
  assert (Hcomplete :
            forall id d lp,
              downloads !! id = Some d -> localPath d = Some lp ->
              exists id' d' lp',
                buildNameIdMap normalize downloads !! normalize lp = Some id'
                /\ downloads !! id' = Some d' /\ localPath d' = Some lp'
                /\ normalize lp' = normalize lp).
  { intros id d lp Hd Hlp. unfold buildNameIdMap.
    apply elem_of_map_to_list, list_elem_of_In in Hd.
    destruct (buildNameIdMap_snoc normalize _ ∅ id d lp Hd Hlp)
      as (id' & d' & lp' & Hl & Hin & H).
    exists id', d', lp'. split; [exact Hl|]. split; [|exact H].
    apply elem_of_map_to_list, list_elem_of_In, Hin. }
  split; [intros name id; apply buildNameIdMap_lookup|].
  split; [exact Hcomplete|].
  intros id d lp Hd Hlp Honly.
  destruct (Hcomplete id d lp Hd Hlp) as (id' & d' & lp' & Hl & Hd' & Hlp' & Hn).
  rewrite Hl. f_equal. exact (Honly id' d' lp' Hd' Hlp' Hn).
Qed.

(** ** The import of a file, step by step *)

(** The three ways an import can go: the replace query is rejected; the
    record is created and the copy or the stat fails; everything
    succeeds. *)
Lemma move_shape (env : ImportEnv) (gameMode : option string)
      (dlId source destination : string) (s : Downloads) :
  let replaced := replacedEffects basename env destination s in
  let created :=
    Dispatch (addLocalDownload dlId gameMode (basename destination) 0) in
  let passed := (exists c, destinationStat env = Rejected c)
                \/ replaces env = true in
  (move basename env gameMode dlId source destination s
   = replaced ++ [Dispatch (removeDownload (Some dlId))]
   /\ moveFailed env = true /\ replaces env = false
   /\ exists st, destinationStat env = Resolved st)
  \/ (move basename env gameMode dlId source destination s
      = replaced ++ [created; FsCopy source destination;
                     Dispatch (removeDownload (Some dlId))]
      /\ moveFailed env = true /\ passed)
  \/ (exists stats,
        copiedStat env = Resolved stats
        /\ move basename env gameMode dlId source destination s
           = replaced ++ [created; FsCopy source destination;
                          Dispatch (downloadProgress dlId (stat_size stats)
                                      (stat_size stats) [] None);
                          Emit "did-import-download" [dlId]]
        /\ moveFailed env = false /\ passed).
Proof.
  unfold moveFailed, move, replacedEffects, replaces, queryReplace,
    removeArchive.
  destruct (destinationStat env) as [st|c0];
    [destruct (String.eqb (dialogAction env) "Cancel");
     destruct (removeOutcome env)|];
    simpl; try (left; repeat split; eauto; fail);
    destruct (copyOutcome env); try destruct (copiedStat env) as [stats|];
    simpl;
    try (right; left; repeat split; eauto; fail);
    right; right; eexists; repeat split; eauto.
Qed.

Lemma replacedEffects_elems (env : ImportEnv) (destination : string)
      (s : Downloads) (e : effect) :
  In e (replacedEffects basename env destination s) ->
  (e = FsRemove destination
   /\ (exists st, destinationStat env = Resolved st)
   /\ dialogAction env <> "Cancel")
  \/ exists a, e = Dispatch a.
Proof.
  unfold replacedEffects, queryReplace, removeArchive.
  destruct (destinationStat env) as [st|]; [|intros []].
  destruct (String.eqb (dialogAction env) "Cancel") eqn:Hc; [intros []|].
  apply String.eqb_neq in Hc.
  destruct (removeOutcome env); simpl.
  - intros [<-|Hin]; [left; eauto|].
    apply in_flat_map in Hin as (kv & _ & Hin).
    case_bool_decide; [|destruct Hin].
    destruct Hin as [<-|[]]. right. eauto.
  - intros [<-|[]]. left. eauto.
Qed.

(** X15. The file operations of an import are the two it is meant to
    make, each at most in its place: the only file it removes is the
    destination, and only if the destination exists and the dialog was
    not cancelled; the only copy it makes is from the source to the
    destination, and only if the destination did not exist or the
    archive there was replaced. *)
Theorem import_file_operations (env : ImportEnv) (gameMode : option string)
        (dlId source destination : string) (s : Downloads) :
  (forall p, In (FsRemove p)
                (move basename env gameMode dlId source destination s) ->
             p = destination
             /\ (exists st, destinationStat env = Resolved st)
             /\ dialogAction env <> "Cancel")
  /\ (forall a b, In (FsCopy a b)
                     (move basename env gameMode dlId source destination s) ->
                  a = source /\ b = destination
                  /\ ((exists c, destinationStat env = Rejected c)
                      \/ replaces env = true)).
Proof.
  pose proof (move_shape env gameMode dlId source destination s) as Hshape.
  cbv zeta in Hshape. split.
  - intros p Hin.
    assert (Hrep : In (FsRemove p)
                      (replacedEffects basename env destination s)).
    { destruct Hshape as [(Hm & _)|[(Hm & _)|(stats & _ & Hm & _)]];
        rewrite Hm in Hin; apply in_app_iff in Hin as [Hin|Hin]; auto;
        simpl in Hin; decompose [or] Hin; try discriminate; contradiction. }
    apply replacedEffects_elems in Hrep as [(Hp & H)|[a Ha]];
      [|discriminate].
    injection Hp as ->. auto.
  - intros a b Hin.
    assert (Hno : ~ In (FsCopy a b)
                       (replacedEffects basename env destination s)).
    { intros H. apply replacedEffects_elems in H as [(H & _)|[x H]];
        discriminate. }
    destruct Hshape as [(Hm & _)|[(Hm & _ & Hp)|(stats & _ & Hm & _ & Hp)]];
      rewrite Hm in Hin; apply in_app_iff in Hin as [Hin|Hin];
      try contradiction; simpl in Hin; decompose [or] Hin;
      try discriminate; try contradiction;
      match goal with
      | E : FsCopy _ _ = FsCopy _ _ |- _ => injection E as <- <-
      end; auto.
Qed.

(** X16. A successful import goes in this order: after the replace
    query it creates the record, copies the file once, reports the size
    of the copied file as both the received and the total bytes, and
    announces the import last; the record of the import is then in the
    store. *)
Theorem import_success (env : ImportEnv) (gameMode : option string)
        (dlId source destination : string) (s : Downloads) :
  moveFailed env = false ->
  let es := move basename env gameMode dlId source destination s in
  exists stats,
    copiedStat env = Resolved stats
    /\ es = replacedEffects basename env destination s
            ++ [Dispatch (addLocalDownload dlId gameMode
                            (basename destination) 0);
                FsCopy source destination;
                Dispatch (downloadProgress dlId (stat_size stats)
                            (stat_size stats) [] None);
                Emit "did-import-download" [dlId]]
    /\ is_Some (files (applyEffects s es) !! dlId).
Proof.
  intros Hok es.
  destruct (move_shape env gameMode dlId source destination s)
    as [(_ & Hf & _)|[(_ & Hf & _)|(stats & Hstat & Hm & _)]];
    try congruence.
  exists stats. split; [exact Hstat|]. unfold es. rewrite Hm.
  split; [reflexivity|].
  unfold applyEffects. rewrite dispatched_app, reduceAll_app. simpl.
  rewrite lookup_alter_eq, lookup_insert_eq. simpl. eauto.
Qed.

(** X17. An import that replaces an archive leaves one record for it:
    after a successful import onto an existing archive, the record of
    the import is the only one whose localPath is the base name of the
    destination. *)
Theorem import_replaces_uniquely (env : ImportEnv)
        (gameMode : option string) (dlId source destination : string)
        (s : Downloads) (id : string) (d : IDownload) :
  moveFailed env = false ->
  replaces env = true ->
  files (applyEffects s
           (move basename env gameMode dlId source destination s)) !! id
  = Some d ->
  localPath d = Some (basename destination) ->
  id = dlId.
Proof.
  intros Hok Hrep.
  destruct (move_shape env gameMode dlId source destination s)
    as [(_ & Hf & _)|[(_ & Hf & _)|(stats & Hstat & Hm & _)]];
    try congruence.
  rewrite Hm. unfold applyEffects.
  rewrite dispatched_app, reduceAll_app. simpl.
  destruct (decide (id = dlId)) as [->|Hne]; [reflexivity|].
  rewrite lookup_alter_ne, lookup_insert_ne by congruence.
  fold (applyEffects s (replacedEffects basename env destination s)).
  rewrite replacedEffects_files, Hrep.
  destruct (files s !! id) as [d0|]; [|discriminate].
  simpl. case_bool_decide as Hlp; [discriminate|].
  intros [= <-] Hd. contradiction.
Qed.

(** ** The speed reports over time *)

Lemma deliver_idle (wait : N) (m : Meter) :
  Debouncer.timer (speedsDebouncer m) = None ->
  storedSpeed (downloads m) = Some 0 ->
  deliver wait 0 m
  = ({| clock := clock m + Z.of_N wait; downloads := downloads m;
        speedsDebouncer := speedsDebouncer m |}, []).
Proof.
  intros Ht Hs. unfold deliver, expire. rewrite Ht. simpl.
  unfold onSpeed. rewrite Hs. reflexivity.
Qed.

Lemma deliverAll_cons (wait : N) (v : Z) (rest : list (N * Z)) (m : Meter) :
  deliverAll ((wait, v) :: rest) m
  = (fst (deliverAll rest (fst (deliver wait v m))),
     snd (deliver wait v m) ++ snd (deliverAll rest (fst (deliver wait v m)))).
Proof. reflexivity. Qed.

Lemma deliverAll_idle (calls : list (N * Z)) (m : Meter) :
  Debouncer.timer (speedsDebouncer m) = None ->
  storedSpeed (downloads m) = Some 0 ->
  Forall (fun c => snd c = 0) calls ->
  snd (deliverAll calls m) = []
  /\ downloads (fst (deliverAll calls m)) = downloads m.
Proof.
  intros Ht Hs Hall. revert m Ht Hs.
  induction Hall as [|[wait v] rest Hv _ IH]; intros m Ht Hs;
    [split; reflexivity|].
  simpl in Hv. subst v.
  rewrite deliverAll_cons, (deliver_idle wait m Ht Hs). cbn [fst snd app].
  apply (IH {| clock := clock m + Z.of_N wait; downloads := downloads m;
               speedsDebouncer := speedsDebouncer m |}); assumption.
Qed.

(** X18. An idle manager is silent: while the stored speed is 0, calls
    of the callback with speed 0, however many and whenever, dispatch
    nothing, arm no timer, and leave the store as it is. *)
Theorem idle_meter_is_silent (reset : bool) (s : Downloads)
        (calls : list (N * Z)) :
  storedSpeed s = Some 0 ->
  Forall (fun c => snd c = 0) calls ->
  snd (deliverAll calls (newMeter reset s)) = []
  /\ downloads (fst (deliverAll calls (newMeter reset s))) = s.
Proof.
  intros Hs Hall.
  apply (deliverAll_idle calls (newMeter reset s)); auto.
Qed.

Lemma deliverAll_app (xs ys : list (N * Z)) (m : Meter) :
  fst (deliverAll (xs ++ ys) m) = fst (deliverAll ys (fst (deliverAll xs m))).
Proof.
  revert m. induction xs as [|[wait v] xs IH]; intros m; simpl;
    [reflexivity|].
  apply IH.
Qed.

Lemma expire_speed (now : Z) (m : Meter) :
  storedSpeed (downloads (fst (expire now m))) = storedSpeed (downloads m).
Proof.
  unfold expire.
  destruct (Debouncer.timer (speedsDebouncer m)) as [due|]; [|reflexivity].
  destruct (due <=? now); reflexivity.
Qed.

(** X19. The stored speed is the one last delivered: after any calls of
    the callback, in whatever state the meter was, the speed in the
    store is the speed of the last call; the reports of the history in
    between do not change it. *)
Theorem stored_speed_is_last_delivered (calls : list (N * Z))
        (wait : N) (v : Z) (m : Meter) :
  storedSpeed (downloads (fst (deliverAll (calls ++ [(wait, v)]) m)))
  = Some v.
Proof.
  rewrite deliverAll_app, deliverAll_cons. cbn [fst snd deliverAll].
  unfold deliver. cbn [fst downloads]. apply onSpeed_stored.
Qed.

Lemma speedSamples_app (l1 l2 : list (Z * effect)) :
  speedSamples (l1 ++ l2) = speedSamples l1 ++ speedSamples l2.
Proof. unfold speedSamples. apply omap_app. Qed.

Lemma deliver_counts (wait : N) (v : Z) (m : Meter)
      (past : list (Z * effect)) :
  (length (speedsReports past) + armed m <= length (speedSamples past))%nat ->
  (length (speedsReports (past ++ snd (deliver wait v m)))
   + armed (fst (deliver wait v m))
   <= length (speedSamples (past ++ snd (deliver wait v m))))%nat.
Proof.
  intros Hinv. unfold deliver. set (now := clock m + Z.of_N wait).
  assert (Hexp :
            let r := expire now m in
            (length (speedsReports (past ++ snd r)) + armed (fst r)
             <= length (speedSamples (past ++ snd r)))%nat).
  { unfold expire, armed in *.
    destruct (Debouncer.timer (speedsDebouncer m)) as [due|] eqn:Ht.
    - destruct (due <=? now); simpl.
      + rewrite speedsReports_app, speedSamples_app, !length_app. simpl. lia.
      + rewrite app_nil_r, Ht. exact Hinv.
    - simpl. rewrite app_nil_r, Ht. exact Hinv. }
  destruct (expire now m) as [m1 l1]. simpl in *.
  rewrite app_assoc, speedsReports_app, speedSamples_app, !length_app.
  rewrite speedsReports_onSpeed. unfold onSpeed, armed in *. simpl.
  destruct (negb (v =? 0) || JS.neq_zero (storedSpeed (downloads m1)));
    simpl.
  - unfold Debouncer.schedule.
    destruct (Debouncer.timer (speedsDebouncer m1)) eqn:Ht;
      [destruct (Debouncer.reset (speedsDebouncer m1))|]; simpl;
      rewrite ?Ht; lia.
  - lia.
Qed.

Lemma deliverAll_counts (calls : list (N * Z)) (m : Meter)
      (past : list (Z * effect)) :
  (length (speedsReports past) + armed m <= length (speedSamples past))%nat ->
  (length (speedsReports (past ++ snd (deliverAll calls m)))
   <= length (speedSamples (past ++ snd (deliverAll calls m))))%nat.
Proof.
  revert m past. induction calls as [|[wait v] rest IH]; intros m past H.
  - simpl. rewrite app_nil_r. lia.
  - rewrite deliverAll_cons. cbn [snd]. rewrite app_assoc.
    apply IH, deliver_counts, H.
Qed.

(** X20. The history is never reported without news: in any run of the
    callback there are at most as many dispatches of [setDownloadSpeeds]
    as there were dispatches of [setDownloadSpeed]. *)
Theorem reports_need_samples (reset : bool) (s : Downloads)
        (calls : list (N * Z)) :
  let log := snd (deliverAll calls (newMeter reset s)) in
  (length (speedsReports log) <= length (speedSamples log))%nat.
Proof.
  intros log. unfold log.
  apply (deliverAll_counts calls (newMeter reset s) []).
  unfold armed. simpl. lia.
Qed.

(** ** The badge *)

(** X21. The badge shows a count only if there is something to count:
    [downloadCount] is [undefined] exactly when no download is in state
    [init], [started] or [paused]; a count it gives is positive and no
    larger than the number of downloads. *)
Theorem downloadCount_undefined_iff (fs : gmap string IDownload) :
  (downloadCount fs = None <->
   forall id d, fs !! id = Some d -> state d ∉ activeStates)
  /\ (forall n, downloadCount fs = Some n ->
                (0 < n <= length (map_to_list fs))%nat).
Proof.
  unfold downloadCount.
  set (active := List.filter _ (map_to_list fs)).
  assert (Hle : (length active <= length (map_to_list fs))%nat)
    by (unfold active; apply filter_length_le).
  split.
  - split.
    + destruct (0 <? length active)%nat eqn:Hc; [discriminate|].
      intros _ id d Hd Hst.
      apply Nat.ltb_ge in Hc.
      assert (Hin : In (id, d) active).
      { unfold active. apply filter_In. split.
        - apply list_elem_of_In, elem_of_map_to_list, Hd.
        - apply bool_decide_eq_true_2, Hst. }
      destruct active; [destruct Hin | simpl in Hc; lia].
    + intros Hall.
      replace active with (@nil (string * IDownload)); [reflexivity|].
      symmetry. unfold active. apply filter_nil. intros [id d] Hin.
      apply list_elem_of_In, elem_of_map_to_list in Hin.
      apply bool_decide_eq_false_2. simpl. exact (Hall id d Hin).
  - intros n. destruct (0 <? length active)%nat eqn:Hc; [|discriminate].
    intros [= <-]. apply Nat.ltb_lt in Hc. lia.
Qed.

End Properties.

(** * The tree of the categories *)

Section TreeProperties.

Import Category.

Variable Mods : Type.
Variable generateSubtitle : string -> Mods -> string.

Local Abbreviation step := (collectStep Mods generateSubtitle).
Local Abbreviation search := (searchChildren Mods generateSubtitle).
Local Abbreviation tree := (createTreeDataObject Mods generateSubtitle).

Lemma collect_from_None (f : string -> option (list IChildren))
      (mods : option Mods) (hided : bool) (l : list (string * ICategory)) :
  fold_left (step f mods hided) l None = None.
Proof. induction l as [|kv l IH]; simpl; [reflexivity | exact IH]. Qed.

Lemma collect_returns (f : string -> option (list IChildren))
      (mods : option Mods) (hided : bool) (l : list (string * ICategory))
      (acc : list IChildren) :
  (forall kv, In kv l -> is_Some (f (fst kv))) ->
  is_Some (fold_left (step f mods hided) l (Some acc)).
Proof.
  revert acc. induction l as [|kv l IH]; intros acc Hall; simpl; [eauto|].
  destruct (Hall kv (or_introl eq_refl)) as [sub ->].
  apply IH. intros kv' Hin. apply Hall. right. exact Hin.
Qed.

Lemma collect_fails (f : string -> option (list IChildren))
      (mods : option Mods) (hided : bool) (l : list (string * ICategory))
      (acc : option (list IChildren)) (kv : string * ICategory) :
  In kv l -> f (fst kv) = None ->
  fold_left (step f mods hided) l acc = None.
Proof.
  revert acc. induction l as [|kv' l IH]; intros acc Hin Hf; [destruct Hin|].
  simpl. destruct Hin as [->|Hin]; [|apply IH; assumption].
  unfold collectStep at 2. rewrite Hf.
  destruct acc; apply collect_from_None.
Qed.

Lemma collect_ext (f g : string -> option (list IChildren))
      (mods : option Mods) (hided : bool) (l : list (string * ICategory))
      (acc : option (list IChildren)) (res : list IChildren) :
  (forall kv r, In kv l -> f (fst kv) = Some r -> g (fst kv) = Some r) ->
  fold_left (step f mods hided) l acc = Some res ->
  fold_left (step g mods hided) l acc = Some res.
Proof.
  revert acc. induction l as [|kv l IH]; intros acc Hfg; simpl; [auto|].
  destruct acc as [a|]; [|rewrite collect_from_None; discriminate].
  simpl. destruct (f (fst kv)) as [sub|] eqn:Hf;
    [|rewrite collect_from_None; discriminate].
  rewrite (Hfg kv sub (or_introl eq_refl) Hf).
  apply IH. intros kv' r Hin. apply Hfg. right. exact Hin.
Qed.

Lemma searchChildren_more_fuel (categories : gmap string ICategory)
      (mods : option Mods) (hided : bool) (fuel fuel' : nat)
      (id : string) (r : list IChildren) :
  (fuel <= fuel')%nat ->
  search fuel categories id mods hided = Some r ->
  search fuel' categories id mods hided = Some r.
Proof.
  revert fuel' id r. induction fuel as [|fuel IH]; intros fuel' id r Hle;
    [discriminate|].
  destruct fuel' as [|fuel']; [lia|]. simpl. unfold collect.
  apply collect_ext. intros kv sub _. apply IH. lia.
Qed.

Lemma childrenOf_In (categories : gmap string ICategory) (id : string)
      (kv : string * ICategory) :
  In kv (childrenOf categories id) <->
  categories !! fst kv = Some (snd kv)
  /\ parentCategory (snd kv) = Some id.
Proof.
  unfold childrenOf. rewrite filter_In, bool_decide_eq_true.
  rewrite <- list_elem_of_In. destruct kv as [k v]. simpl.
  rewrite elem_of_map_to_list. reflexivity.
Qed.

Lemma roots_In (categories : gmap string ICategory)
      (kv : string * ICategory) :
  In kv (roots categories) <->
  categories !! fst kv = Some (snd kv) /\ parentCategory (snd kv) = None.
Proof.
  unfold roots. rewrite filter_In, bool_decide_eq_true.
  rewrite <- list_elem_of_In. destruct kv as [k v]. simpl.
  rewrite elem_of_map_to_list. reflexivity.
Qed.

Lemma rooted_depth (categories : gmap string ICategory) (id : string)
      (k k' : nat) :
  rooted categories id k -> rooted categories id k' -> k = k'.
Proof.
  intros H. revert k'. induction H as [id c Hc Hp|id c p k Hc Hp _ IH];
    intros k' H'; inversion H' as [i c' Hc' Hp'|i c' p' j Hc' Hp' Hr'];
    subst; rewrite Hc in Hc'; injection Hc' as <-; try congruence.
  f_equal. apply IH. congruence.
Qed.

(** The chain from a category up to its root has no repetition, so it
    is no longer than there are categories. *)
Lemma rooted_bound (categories : gmap string ICategory) (id : string)
      (k : nat) :
  rooted categories id k -> (k < length (map_to_list categories))%nat.
Proof.
  intros H.
  assert (Hchain :
            exists l, length l = S k /\ List.NoDup l
                      /\ (forall x, In x l ->
                                    exists j, (j <= k)%nat
                                              /\ rooted categories x j)).
  { induction H as [id c Hc Hp|id c p k Hc Hp Hr IH].
    - exists [id]. split; [reflexivity|]. split.
      + apply List.NoDup_cons; [intros [] | apply List.NoDup_nil].
      + intros x [<-|[]]. exists O. split; [lia|].
        eapply rooted_root; eauto.
    - destruct IH as (l & Hlen & Hnd & Hall).
      exists (id :: l). split; [simpl; lia|]. split.
      + apply List.NoDup_cons; [|exact Hnd].
        intros Hin. destruct (Hall id Hin) as (j & Hj & Hrj).
        assert (rooted categories id (S k))
          by (eapply rooted_child; eauto).
        pose proof (rooted_depth _ _ _ _ Hrj H). lia.
      + intros x [<-|Hin].
        * exists (S k). split; [lia|]. eapply rooted_child; eauto.
        * destruct (Hall x Hin) as (j & Hj & Hrj). exists j.
          split; [lia | exact Hrj]. }
  destruct Hchain as (l & Hlen & Hnd & Hall).
  assert (Hincl : incl l (map fst (map_to_list categories))).
  { intros x Hx. destruct (Hall x Hx) as (j & _ & Hr).
    assert (exists c, categories !! x = Some c) as [c Hc]
      by (inversion Hr; eauto).
    apply in_map_iff. exists (x, c). split; [reflexivity|].
    apply list_elem_of_In, elem_of_map_to_list, Hc. }
  pose proof (List.NoDup_incl_length Hnd Hincl) as Hle.
  rewrite length_map in Hle. lia.
Qed.

Lemma searchChildren_returns (categories : gmap string ICategory)
      (mods : option Mods) (hided : bool) (fuel : nat) (id : string)
      (k : nat) :
  rooted categories id k ->
  (length (map_to_list categories) <= fuel + k)%nat ->
  is_Some (search fuel categories id mods hided).
Proof.
  revert id k. induction fuel as [|fuel IH]; intros id k Hr Hle.
  - apply rooted_bound in Hr. lia.
  - simpl. apply collect_returns. intros kv Hin.
    apply childrenOf_In in Hin as [Hc Hp].
    apply (IH (fst kv) (S k)); [|lia].
    eapply rooted_child; eauto.
Qed.

Lemma Forall2_In_r {A B : Type} (P : A -> B -> Prop)
      (xs : list A) (ys : list B) (y : B) :
  Forall2 P xs ys -> In y ys -> exists x, In x xs /\ P x y.
Proof.
  induction 1 as [|x y' xs ys Hp _ IH]; intros Hin; [destruct Hin|].
  destruct Hin as [->|Hin].
  - exists x. split; [left; reflexivity | exact Hp].
  - destruct (IH Hin) as (x' & Hx & Hp'). exists x'. split; [right|]; auto.
Qed.

Lemma roots_from_None (fuel : nat) (categories : gmap string ICategory)
      (mods : option Mods) (hided : bool) (l : list (string * ICategory)) :
  fold_left (rootStep Mods generateSubtitle fuel categories mods hided) l None
  = None.
Proof. induction l as [|kv l IH]; simpl; [reflexivity | exact IH]. Qed.

(** What the loop over the roots appends: one node per root, in order,
    with the children its inner loop collects. *)
Lemma roots_appended (fuel : nat) (categories : gmap string ICategory)
      (mods : option Mods) (hided : bool) (l : list (string * ICategory))
      (acc res : list IChildren) :
  fold_left (rootStep Mods generateSubtitle fuel categories mods hided) l
            (Some acc) = Some res ->
  exists added,
    res = acc ++ added
    /\ Forall2 (fun n kv =>
                  rootId n = fst kv /\ title n = name (snd kv)
                  /\ subtitle n = subtitleOf Mods generateSubtitle mods (fst kv)
                  /\ expanded n = false /\ parentId n = None
                  /\ collect Mods generateSubtitle
                       (fun element => search fuel categories element mods
                                         hided)
                       mods hided (childrenOf categories (fst kv))
                     = Some (children n))
               added l.
Proof.
  revert acc. induction l as [|kv l IH]; intros acc; simpl.
  - intros [= <-]. exists []. rewrite app_nil_r. split; constructor.
  - destruct (collect _ _ _ _ _ (childrenOf categories (fst kv)))
      as [cl|] eqn:Hc; [|rewrite roots_from_None; discriminate].
    intros H. apply IH in H as (added & -> & Hall).
    eexists (_ :: added). rewrite <- app_assoc. split; [reflexivity|].
    constructor; [|exact Hall]. simpl. auto 7.
Qed.

Lemma collected (f : string -> option (list IChildren))
      (mods : option Mods) (l : list (string * ICategory))
      (acc res : list IChildren) :
  fold_left (step f mods false) l (Some acc) = Some res ->
  exists added,
    res = acc ++ added
    /\ Forall2 (fun n kv =>
                  rootId n = fst kv /\ title n = name (snd kv)
                  /\ expanded n = false
                  /\ parentId n = parentCategory (snd kv)
                  /\ f (fst kv) = Some (children n))
               added l.
Proof.
  revert acc. induction l as [|kv l IH]; intros acc; simpl.
  - intros [= <-]. exists []. rewrite app_nil_r. split; constructor.
  - destruct (f (fst kv)) as [sub|] eqn:Hf;
      [|rewrite collect_from_None; discriminate].
    unfold pushChild. simpl.
    intros H. apply IH in H as (added & -> & Hall).
    eexists (_ :: added). rewrite <- app_assoc. split; [reflexivity|].
    constructor; [|exact Hall]. simpl. auto 6.
Qed.

Lemma collected_hidden (f : string -> option (list IChildren))
      (l : list (string * ICategory)) (acc res : list IChildren) :
  fold_left (step f None true) l (Some acc) = Some res -> res = acc.
Proof.
  revert acc. induction l as [|kv l IH]; intros acc; simpl.
  - intros [= <-]. reflexivity.
  - destruct (f (fst kv)) as [sub|];
      [|rewrite collect_from_None; discriminate].
    unfold pushChild. simpl. apply IH.
Qed.

(** X22. [createTreeDataObject] returns on every object of categories,
    cyclic parents included: a category below a root has a chain of
    distinct parents up to that root, so the recursion is never deeper
    than there are categories.  Fuel for that depth suffices, and more
    fuel gives the same tree. *)
Theorem createTreeDataObject_returns (categories : gmap string ICategory)
        (mods : option Mods) (hided : bool) (fuel : nat) :
  (length (map_to_list categories) <= fuel)%nat ->
  exists t,
    tree fuel categories mods hided = Some t
    /\ tree (length (map_to_list categories)) categories mods hided = Some t.
Proof.
  intros Hle. set (n := length (map_to_list categories)) in *.
  assert (Hret : forall l acc,
             (forall kv, In kv l -> In kv (roots categories)) ->
             is_Some (fold_left
                        (rootStep Mods generateSubtitle n categories mods
                           hided) l (Some acc))).
  { induction l as [|kv l IH]; intros acc Hl; simpl; [eauto|].
    pose proof (Hl kv (or_introl eq_refl)) as Hroot.
    apply roots_In in Hroot as [Hc Hp].
    destruct (collect_returns
                (fun element => search n categories element mods hided)
                mods hided (childrenOf categories (fst kv)) [])
      as [cl Hcl].
    { intros kv' Hin. apply childrenOf_In in Hin as [Hc' Hp'].
      apply (searchChildren_returns _ _ _ _ _ 1); [|unfold n; lia].
      eapply rooted_child; eauto. eapply rooted_root; eauto. }
    unfold collect. rewrite Hcl. apply IH.
    intros kv' Hin. apply Hl. right. exact Hin. }
  destruct (Hret (roots categories) [] (fun kv H => H)) as [t Ht].
  exists t. split; [|exact Ht].
  unfold createTreeDataObject in *. revert Ht.
  generalize (@Some (list IChildren) []). generalize (roots categories).
  induction l as [|kv l IH]; intros acc; simpl; [auto|].
  destruct acc as [a|]; simpl; [|rewrite roots_from_None; discriminate].
  destruct (collect _ _ _ _ _ (childrenOf categories (fst kv)))
    as [cl|] eqn:Hc; [|rewrite roots_from_None; discriminate].
  unfold collect in Hc.
  apply (collect_ext _ (fun element => search fuel categories element mods
                                         hided)) in Hc.
  - unfold collect. rewrite Hc. apply IH.
  - intros kv' r _. apply searchChildren_more_fuel, Hle.
Qed.


Lemma Forall2_Forall_l {A B : Type} (P : A -> B -> Prop) (Q : A -> Prop)
      (xs : list A) (ys : list B) :
  Forall2 P xs ys -> (forall x y, P x y -> Q x) -> Forall Q xs.
Proof.
  induction 1 as [|x y xs ys Hp _ IH]; intros Hpq; constructor; eauto.
Qed.

Lemma Forall2_impl_In {A B : Type} (P Q : A -> B -> Prop)
      (xs : list A) (ys : list B) :
  Forall2 P xs ys -> (forall x y, In y ys -> P x y -> Q x y) ->
  Forall2 Q xs ys.
Proof.
  induction 1 as [|x y xs ys Hp _ IH]; intros Hpq; constructor.
  - apply Hpq; [left; reflexivity | exact Hp].
  - apply IH. intros x' y' Hin. apply Hpq. right. exact Hin.
Qed.

(** X24. With hidden empty categories and no mods the tree is flat: no
    subtitle is generated, so no child is pushed, and every root has an
    empty list of children. *)
Theorem hidden_without_mods_is_flat (categories : gmap string ICategory)
        (fuel : nat) (t : list IChildren) :
  tree fuel categories None true = Some t ->
  Forall (fun n => children n = []) t.
Proof.
  intros Ht. apply roots_appended in Ht as (added & -> & Hall). simpl.
  eapply Forall2_Forall_l; [exact Hall|]. simpl.
  intros n kv H. decompose [and] H.
  match goal with
  | E : collect _ _ _ _ _ _ = Some _ |- _ =>
      unfold collect in E; apply collected_hidden in E; exact E
  end.
Qed.

Lemma searchChildren_lists (categories : gmap string ICategory)
      (mods : option Mods) (fuel : nat) (id : string)
      (r : list IChildren) :
  collect Mods generateSubtitle
    (fun element => search fuel categories element mods false)
    mods false (childrenOf categories id) = Some r ->
  Forall2 (fun n kv =>
             rootId n = fst kv /\ title n = name (snd kv)
             /\ expanded n = false /\ parentId n = Some id)
          r (childrenOf categories id).
Proof.
  unfold collect. intros H. apply collected in H as (added & -> & Hall).
  simpl. eapply Forall2_impl_In; [exact Hall|]. simpl.
  intros n kv Hin H. apply childrenOf_In in Hin as [_ Hp].
  decompose [and] H. rewrite <- Hp. auto.
Qed.


Lemma ancestor_last (categories : gmap string ICategory) (k : nat)
      (y x : string) :
  ancestor categories (S k) y x ->
  exists z c, ancestor categories k y z /\ categories !! z = Some c
              /\ parentCategory c = Some x.
Proof.
  revert y. induction k as [|k IH]; intros y H;
    inversion H as [|k' id c p a Hc Hp Hrest]; subst.
  - inversion Hrest; subst. exists y, c. split; [constructor | auto].
  - destruct (IH p Hrest) as (z & c' & Hz & Hc' & Hp').
    exists z, c'. split; [|auto]. eapply ancestor_step; eauto.
Qed.

(** X26. [searchChildren] does not return on a category that is its
    own ancestor: called for a category on a cycle of parents, a
    category that is its own parent for one, it recurses for ever,
    whatever the fuel. *)
Theorem searchChildren_cycle_diverges (categories : gmap string ICategory)
        (mods : option Mods) (hided : bool) (k : nat) (id : string)
        (fuel : nat) :
  ancestor categories (S k) id id ->
  search fuel categories id mods hided = None.
Proof.
  revert id. induction fuel as [|fuel IH]; intros id Hcycle; [reflexivity|].
  simpl. destruct (ancestor_last _ _ _ _ Hcycle) as (z & c & Hz & Hc & Hp).
  unfold collect. apply (collect_fails _ _ _ _ _ (z, c)).
  - apply childrenOf_In. auto.
  - simpl. apply IH. eapply ancestor_step; eauto.
Qed.

End TreeProperties.

(** * The model on concrete stores *)

Section Concrete.

Local Abbreviation startup' := (startup Posix.join).
Local Abbreviation recover' := (recoverDownloads Posix.join).
Local Abbreviation perform' :=
  (perform Posix.extname Posix.toLowerCase Posix.join Posix.basename
     Posix.getDownloadGames).



(** C2, as stated, fails: a download of size 10 whose one chunk has size
    20 is interrupted with the byte count -10. *)
Lemma realSize_negative :
  files Example.resumable !! "dl4" = Some Example.startedOverrun
  /\ realSize Example.startedOverrun = JS.Num (-10)
  /\ In (Dispatch (setDownloadInterrupted "dl4" (JS.Num (-10))))
        (recover' Example.removesAll (Some "/downloads")
           (files Example.resumable))
  /\ -10 < 0.
Proof.
  vm_compute. repeat split. right. left. reflexivity.
Qed.

Lemma realSize_value_witness :
  realSize Example.started = JS.Num 40.
Proof.
  destruct (realSize_value Posix.join Example.started)
    as (_ & _ & _ & H & _).
  apply (H 100 [30; 30]).
  - reflexivity.
  - discriminate.
  - reflexivity.
Defined.

(** C3, as stated, fails: a paused download with urls is not in a
    terminal state, and after startup it is still paused. *)
Lemma paused_survives_startup :
  let s := Example.resumable in
  let s' := startup' Example.removesAll (Some "/downloads") s in
  files s !! "dl3" = Some Example.pausedWithUrls
  /\ state Example.pausedWithUrls = "paused"
  /\ urls Example.pausedWithUrls = Some ["http://host/c.zip"]
  /\ files s' !! "dl3" = Some Example.pausedWithUrls.
Proof.
  vm_compute. repeat split.
Qed.

Lemma startup_interrupts_witness :
  files Example.resumable !! "dl5" = Some Example.started
  /\ files (startup' Example.removesAll (Some "/downloads")
              Example.resumable) !! "dl5"
     = Some (Reducer.interrupt (JS.Num 40) Example.started).
Proof.
  split; [reflexivity|].
  destruct (startup_interrupts Posix.join Example.removesAll
              (Some "/downloads") Example.resumable "dl5" Example.started)
    as (_ & H & _).
  - reflexivity.
  - apply elem_of_cons. right. apply elem_of_cons. left. reflexivity.
  - eexists. reflexivity.
  - exact H.
Defined.



Lemma reported_speed_witness :
  storedSpeed
    (applyEffects (Example.store ∅)
       (onSpeed (meterRate [0%N; 0%N] 2) (Example.store ∅)))
  = Some 0.
Proof.
  destruct (reported_speed_not_negative [0%N; 0%N] 2 (Example.store ∅))
    as (_ & _ & _ & H).
  apply H. repeat constructor.
Defined.

Lemma startup_deletes_witness :
  exists id d dp lp,
    files Example.stalled !! id = Some d
    /\ state d ∈ interruptedStates /\ urls d = None
    /\ Some "/downloads" = Some dp /\ localPath d = Some lp
    /\ "/downloads/b.zip" = Posix.join dp lp.
Proof.
  destruct (startup_deletes_only_never_started Posix.join Example.removesAll
              (Some "/downloads") (files Example.stalled)) as [H _].
  apply H. vm_compute. left. reflexivity.
Defined.

(** C8, as stated, fails: the import replaces the archive [mod.zip] and
    then the copy fails; the record of the old archive is gone from the
    store. *)
Lemma failed_import_loses_record :
  let s := Example.library in
  let s' := applyEffects s
              (move Posix.basename Example.copyFails (Some "skyrim") "new1"
                 "/tmp/mod.zip" "/downloads/mod.zip" s) in
  moveFailed Example.copyFails = true
  /\ files s !! "new1" = None
  /\ files s !! "dl7" = Some Example.finished
  /\ files s' !! "dl7" = None
  /\ files s' <> files s.
Proof.
  vm_compute. repeat split. discriminate.
Qed.

Lemma failed_import_witness :
  let s := Example.library in
  let s' := applyEffects s
              (move Posix.basename Example.copyFails (Some "skyrim") "new1"
                 "/tmp/mod.zip" "/downloads/mod.zip" s) in
  files s' !! "new1" = None /\ files s' !! "dl6" = files s !! "dl6".
Proof.
  destruct (failed_import_rolls_back Posix.basename Example.copyFails
              (Some "skyrim") "new1" "/tmp/mod.zip" "/downloads/mod.zip"
              Example.library) as (H1 & _ & H2 & _).
  - reflexivity.
  - reflexivity.
  - split; [exact H1|]. rewrite H2. reflexivity.
Defined.

Lemma update_event_witness :
  downloadChangeHandler Posix.extname Posix.toLowerCase (fun n => n)
    "skyrim" Example.anyStat "update" (Some "mod.zip")
    (genDownloadChangeHandler true ∅) Example.library
  = (genDownloadChangeHandler true ∅, []).
Proof.
  destruct (update_event_changes_nothing Posix.extname Posix.toLowerCase
              (fun n => n) "skyrim" true ∅ Example.library []
              Example.anyStat (Some "mod.zip")) as (_ & H & _).
  exact H.
Defined.

Lemma knownArchiveExt_witness :
  knownArchiveExt Posix.extname Posix.toLowerCase (Some "notes.txt") = false
  /\ knownArchiveExt Posix.extname Posix.toLowerCase (Some "Mod.ZIP") = true
  /\ downloadChangeHandler Posix.extname Posix.toLowerCase (fun n => n)
       "skyrim" Example.anyStat "rename" (Some "notes.txt")
       (genDownloadChangeHandler true ∅) Example.library
     = (genDownloadChangeHandler true ∅, []).
Proof.
  split; [reflexivity|]. split; [reflexivity|].
  destruct (knownArchiveExt_filters Posix.extname Posix.toLowerCase
              Posix.join Posix.getDownloadGames (Some "notes.txt"))
    as [_ H].
  destruct (H eq_refl) as [Hh _]. apply Hh.
Defined.

(** ** The further properties on concrete inputs *)

Local Abbreviation handler' :=
  (downloadChangeHandler Posix.extname Posix.toLowerCase).
Local Abbreviation watchRun' :=
  (watchRun Posix.extname Posix.toLowerCase Posix.toLowerCase "skyrim").
Local Abbreviation update' :=
  (updateDownloadPath Posix.extname Posix.toLowerCase Posix.join
     Posix.getDownloadGames).
Local Abbreviation move' :=
  (move Posix.basename).

Lemma startup_leaves_localPath_witness :
  exists lp, localPath (Reducer.interrupt (JS.Num 40) Example.started)
             = Some lp /\ lp <> "".
Proof.
  apply (startup_leaves_localPath Posix.join Example.removesAll
           (Some "/downloads") Example.resumable "dl5").
  vm_compute. reflexivity.
Defined.

Lemma startup_keeps_settled_witness :
  files (startup' Example.removesAll (Some "/downloads") Example.resumable)
    !! "dl3" = Some Example.pausedWithUrls.
Proof.
  apply (startup_keeps_settled Posix.join).
  - vm_compute. reflexivity.
  - intros H. apply (bool_decide_eq_true_2 _) in H. vm_compute in H.
    discriminate.
  - vm_compute. reflexivity.
Defined.

Lemma startup_leaves_none_interrupted_witness :
  state (Reducer.interrupt (JS.Num 40) Example.started) ∉ interruptedStates.
Proof.
  apply (startup_leaves_none_interrupted Posix.join Example.removesAll
           (Some "/downloads") Example.resumable "dl5").
  - intros p. reflexivity.
  - vm_compute. reflexivity.
Defined.

Lemma realSize_in_range_witness :
  exists r, realSize Example.started = JS.Num r /\ 0 <= r <= 100.
Proof.
  apply (realSize_in_range Example.started 100 [30; 30]).
  - reflexivity.
  - reflexivity.
  - repeat constructor; lia.
  - simpl. lia.
Defined.

Lemma watcher_keeps_paths_unique_witness :
  uniquePaths
    (files (snd (fst (watchRun'
                        [FsEvent Sample.appears "rename" (Some "new.zip")]
                        (genDownloadChangeHandler true ∅,
                         Example.store ∅))))).
Proof.
  apply (watcher_keeps_paths_unique Posix.extname Posix.toLowerCase
           Posix.toLowerCase "skyrim"
           [FsEvent Sample.appears "rename" (Some "new.zip")]
           (genDownloadChangeHandler true ∅, Example.store ∅)).
  intros id1 id2 d1 d2 lp H. simpl in H. rewrite lookup_empty in H.
  discriminate.
Defined.


Lemma created_then_deleted_witness :
  snd (fst (watchRun'
              [FsEvent Sample.appears "rename" (Some "new.zip");
               FsEvent {| statOutcome := Rejected "ENOENT";
                          freshId := "n2" |} "rename" (Some "new.zip")]
              (genDownloadChangeHandler true ∅, Sample.shelf)))
  = Sample.shelf.
Proof.
  destruct (created_then_deleted Posix.extname Posix.toLowerCase
              Posix.toLowerCase "skyrim" "new.zip" "n1" "n2"
              {| stat_size := 5; isDirectory := false |}
              (genDownloadChangeHandler true ∅) Sample.shelf)
    as [_ H].
  - reflexivity.
  - vm_compute. reflexivity.
  - vm_compute. reflexivity.
  - vm_compute. reflexivity.
  - exact H.
Defined.

Lemma refresh_in_sync_witness :
  update' Sample.inStep None Sample.downloadPathForGame
          Sample.getNormalizeFunc (Some "skyrim") Sample.shelf
  = ([Emit "downloads-refreshed" []],
     Some (buildNameIdMap Posix.toLowerCase (files Sample.shelf))).
Proof.
  apply (refresh_in_sync_dispatches_nothing Posix.extname Posix.toLowerCase
           Posix.join Posix.getDownloadGames Sample.inStep None
           Sample.downloadPathForGame Sample.getNormalizeFunc
           (Some "skyrim") Sample.shelf "skyrim" Posix.toLowerCase).
  - reflexivity.
  - reflexivity.
  - intros id d H _. unfold Sample.shelf, Example.store in H. simpl in H.
    apply lookup_insert_Some in H as [[_ <-]|[_ H]]; [reflexivity|].
    rewrite lookup_empty in H. discriminate.
  - intros entries [= <-]. split.
    + intros m (Hin & Hk & _).
      destruct Hin as [<-|[<-|[]]].
      * vm_compute. left. reflexivity.
      * vm_compute in Hk. discriminate.
    + intros n Hn. vm_compute in Hn. destruct Hn as [<-|[]].
      exists "mod.zip". split; [|reflexivity].
      split; [left; reflexivity|].
      split; [vm_compute; reflexivity|].
      eexists. split; reflexivity.
Defined.

Lemma unreadable_directory_witness :
  exists id d,
    removeDownload (Some "dl6") = removeDownload (Some id)
    /\ files Example.library !! id = Some d
    /\ state d = "finished" /\ truthy (localPath d) = false.
Proof.
  apply (unreadable_directory_removes_nothing Posix.extname
           Posix.toLowerCase Posix.join Posix.getDownloadGames
           Sample.unreadable None Sample.downloadPathForGame
           Sample.getNormalizeFunc (Some "skyrim") Example.library).
  - right. exists "EACCES". reflexivity.
  - vm_compute. left. reflexivity.
Defined.

Lemma failed_add_witness :
  exists id d,
    Some "dl6" = Some id /\ files Example.library !! id = Some d
    /\ state d = "finished" /\ truthy (localPath d) = false.
Proof.
  apply (failed_add_skips_removals Posix.extname Posix.toLowerCase
           Posix.join Posix.getDownloadGames Sample.vanished None
           Sample.downloadPathForGame Sample.getNormalizeFunc
           (Some "skyrim") Example.library "skyrim" Posix.toLowerCase
           ["new.7z"] "new.7z" "ENOENT").
  - reflexivity.
  - reflexivity.
  - reflexivity.
  - split; [left; reflexivity|].
    split; [vm_compute; reflexivity|].
    eexists. split; reflexivity.
  - vm_compute. intros H. decompose [or] H; try discriminate; assumption.
  - reflexivity.
  - vm_compute. left. reflexivity.
Defined.

Lemma import_success_witness :
  is_Some
    (files (applyEffects Example.library
              (move' Sample.replaceSucceeds (Some "skyrim") "new1"
                 "/tmp/mod.zip" "/downloads/mod.zip" Example.library))
       !! "new1").
Proof.
  destruct (import_success Posix.basename Sample.replaceSucceeds
              (Some "skyrim") "new1" "/tmp/mod.zip" "/downloads/mod.zip"
              Example.library) as (stats & _ & _ & H).
  - reflexivity.
  - exact H.
Defined.

Lemma import_replaces_uniquely_witness :
  files (applyEffects Example.library
           (move' Sample.replaceSucceeds (Some "skyrim") "new1"
              "/tmp/mod.zip" "/downloads/mod.zip" Example.library))
    !! "new1" = Some Sample.imported
  /\ "new1" = "new1".
Proof.
  assert (H : files (applyEffects Example.library
                       (move' Sample.replaceSucceeds (Some "skyrim") "new1"
                          "/tmp/mod.zip" "/downloads/mod.zip"
                          Example.library))
                !! "new1" = Some Sample.imported)
    by (vm_compute; reflexivity).
  split; [exact H|].
  apply (import_replaces_uniquely Posix.basename Sample.replaceSucceeds
           (Some "skyrim") "new1" "/tmp/mod.zip" "/downloads/mod.zip"
           Example.library "new1" Sample.imported).
  - reflexivity.
  - reflexivity.
  - exact H.
  - vm_compute. reflexivity.
Defined.

Lemma idle_meter_witness :
  snd (deliverAll [(1000%N, 0); (2000%N, 0)]
         (newMeter false (Example.store ∅))) = []
  /\ downloads (fst (deliverAll [(1000%N, 0); (2000%N, 0)]
                       (newMeter false (Example.store ∅))))
     = Example.store ∅.
Proof.
  apply (idle_meter_is_silent false (Example.store ∅)
           [(1000%N, 0); (2000%N, 0)]).
  - reflexivity.
  - repeat constructor.
Defined.

Lemma createTreeDataObject_returns_witness :
  exists t,
    Category.createTreeDataObject unit Sample.noSubtitle 5 Sample.armor
      None false = Some t
    /\ Category.createTreeDataObject unit Sample.noSubtitle
         (length (map_to_list Sample.armor)) Sample.armor None false
       = Some t.
Proof.
  apply (createTreeDataObject_returns unit Sample.noSubtitle Sample.armor
           None false 5).
  vm_compute. lia.
Defined.


Lemma hidden_without_mods_witness :
  exists t,
    Category.createTreeDataObject unit Sample.noSubtitle 2 Sample.armor
      None true = Some t
    /\ Forall (fun n => Category.children n = []) t.
Proof.
  destruct (Category.createTreeDataObject unit Sample.noSubtitle 2
              Sample.armor None true) as [t|] eqn:Ht;
    [|vm_compute in Ht; discriminate].
  exists t. split; [reflexivity|].
  exact (hidden_without_mods_is_flat unit Sample.noSubtitle Sample.armor
           2 t Ht).
Defined.

Lemma searchChildren_cycle_witness :
  Category.searchChildren unit Sample.noSubtitle 7 Sample.loop "3" None false
  = None.
Proof.
  apply (searchChildren_cycle_diverges unit Sample.noSubtitle Sample.loop
           None false 0 "3" 7).
  eapply Category.ancestor_step.
  - vm_compute. reflexivity.
  - reflexivity.
  - constructor.
Defined.

End Concrete.
